(** * Othello agent: depth-limited minimax with alpha-beta pruning

    Shallow embedding of [your_agent/agent.py] and the properties of its
    search procedure.

    The [Board] class is imported by the agent from a module that is not part
    of the agent itself, so the board is a collaborator here: the class
    [BoardAPI] of board values with [legal_moves], [process_move] and [tiles],
    of which the Othello board of this file is one instance.  Board objects
    live in a heap, because the agent copies them with [deepcopy] and mutates
    the copies in place with [process_move]. *)

From Stdlib Require Import ZArith List String Bool Lia.
From Stdlib Require Import Orders OrdersTac.
Import ListNotations.
Open Scope Z_scope.

(** ** Scores

    The scores of the search are Python numbers: the leaves are [int]s
    (differences of piece counts), the bounds start at [float('inf')] and
    [-float('inf')].  Python compares an [int] with an infinite [float]
    exactly, so a score is an integer extended with two infinities. *)

Module Score.

Inductive score : Type :=
| NegInf : score
| Fin : Z -> score
| PosInf : score.

Definition t : Type := score.

(** Unary minus, as in [-INFINITY]. *)
Definition neg (a : t) : t :=
  match a with
  | NegInf => PosInf
  | Fin z => Fin (- z)
  | PosInf => NegInf
  end.

(** [a < b] *)
Definition ltb (a b : t) : bool :=
  match a, b with
  | NegInf, NegInf => false
  | NegInf, _ => true
  | Fin _, NegInf => false
  | Fin x, Fin y => x <? y
  | Fin _, PosInf => true
  | PosInf, _ => false
  end.

(** [a <= b] *)
Definition leb (a b : t) : bool :=
  match a, b with
  | NegInf, _ => true
  | Fin _, NegInf => false
  | Fin x, Fin y => x <=? y
  | Fin _, PosInf => true
  | PosInf, PosInf => true
  | PosInf, _ => false
  end.

(** [a > b] and [a >= b] are Python's reflected comparisons. *)
Definition gtb (a b : t) : bool := ltb b a.
Definition geb (a b : t) : bool := leb b a.

(** Python's [min(a, b)]: the first argument unless the second is strictly
    smaller. *)
Definition min (a b : t) : t := if ltb b a then b else a.

(** Python's [max(a, b)]: the first argument unless the second is strictly
    greater. *)
Definition max (a b : t) : t := if gtb b a then b else a.

Definition eq : t -> t -> Prop := @Logic.eq t.
Definition lt (a b : t) : Prop := ltb a b = true.
Definition le (a b : t) : Prop := leb a b = true.

End Score.


Abbreviation Score := Score.t.
Abbreviation NegInf := Score.NegInf.
Abbreviation PosInf := Score.PosInf.
Abbreviation Fin := Score.Fin.

Declare Scope score_scope.
Delimit Scope score_scope with score.
Bind Scope score_scope with Score.t.
Infix "<?" := Score.ltb : score_scope.
Infix "<=?" := Score.leb : score_scope.
Infix ">?" := Score.gtb : score_scope.
Infix ">=?" := Score.geb : score_scope.
Infix "<" := Score.lt : score_scope.
Infix "<=" := Score.le : score_scope.
Notation "- a" := (Score.neg a) : score_scope.

(** [INFINITY = float('inf')] *)
Definition INFINITY : Score := PosInf.

(** ** Exceptions and outcomes

    A call either returns or raises.  [IndexError] is the only exception the
    agent itself can raise (the subscript [legal_moves[0]]); [InvalidArgument]
    and [IllegalState] are the error conditions named by the specification. *)

Inductive exception : Type :=
| IndexError
| InvalidArgument
| IllegalState.

Inductive outcome (A : Type) : Type :=
| Returned (a : A)
| Raised (e : exception).

Arguments Returned {A} a.
Arguments Raised {A} e.

(** ** The heap of board objects

    A Python variable holding a board is a reference.  References are never
    dangling, so the heap is a total map from references to board values and
    a counter giving the next unused reference. *)

Definition ref : Set := nat.
Bind Scope nat_scope with ref.

Record Heap (B : Type) : Type := mkHeap {
  cell : ref -> B;
  fresh : nat
}.

Arguments mkHeap {B} cell fresh.
Arguments cell {B} h r.
Arguments fresh {B} h.

(** [deepcopy(board)]: a new object with the same contents. *)
Definition deepcopy {B : Type} (board : ref) (s : Heap B) : ref * Heap B :=
  (fresh s,
   mkHeap (fun r => if Nat.eqb r (fresh s) then cell s board else cell s r)
          (S (fresh s))).

(** In-place update of the object behind one reference. *)
Definition update {B : Type} (r : ref) (f : B -> B) (s : Heap B) : Heap B :=
  mkHeap (fun r' => if Nat.eqb r' r then f (cell s r) else cell s r') (fresh s).

(** ** The [Board] collaborator

    What the agent uses of a board: the state of a board object, the moves,
    [board.legal_moves(color)] (an ordered sequence, read only), the effect of
    [board.process_move(move, color)] on the receiver, and
    [board.tiles[i][j]] on the 8x8 grid. *)

Class BoardAPI : Type := {
  Board : Type;
  Move : Type;
  legal_moves : Board -> string -> list Move;
  process_move : Board -> Move -> string -> Board;
  tiles : Board -> nat -> nat -> string
}.

(** ** An Othello board

    An instance of the [Board] collaborator with the usual rules of Othello,
    on which the agent can be run: [tiles] is the 8x8 grid of ["B"], ["W"] and
    ["."], a move is the pair [(x, y)] of a column and a row, and the legal
    moves are listed row by row. *)

Module Othello.

Definition board : Type := list (list string).
Definition move : Type := (Z * Z)%type.

Definition EMPTY : string := "."%string.

Definition other (color : string) : string :=
  if String.eqb color "W" then "B" else "W".

(** [board.tiles[i][j]] *)
Definition tiles (b : board) (i j : nat) : string :=
  nth j (nth i b []) EMPTY.

Definition on_board (x y : Z) : bool :=
  (0 <=? x) && (x <? 8) && (0 <=? y) && (y <? 8).

(** The occupant of column [x] of row [y]; [""] outside the grid. *)
Definition at_ (b : board) (x y : Z) : string :=
  if on_board x y then tiles b (Z.to_nat y) (Z.to_nat x) else EmptyString.

Definition directions : list (Z * Z) :=
  [(-1, -1); (0, -1); (1, -1); (-1, 0); (1, 0); (-1, 1); (0, 1); (1, 1)].

(** The opponent pieces from [(x, y)] on in direction [(dx, dy)] that are
    closed by a piece of [color]; none when the line is not closed. *)
Fixpoint ray (n : nat) (b : board) (color : string) (x y dx dy : Z)
    (acc : list (Z * Z)) : list (Z * Z) :=
  match n with
  | O => []
  | S n' =>
      let c := at_ b x y in
      if String.eqb c (other color)
      then ray n' b color (x + dx) (y + dy) dx dy ((x, y) :: acc)
      else if String.eqb c color then acc else []
  end.

(** The pieces turned over by [color] playing at [(x, y)]. *)
Definition flips (b : board) (color : string) (m : move) : list (Z * Z) :=
  let (x, y) := m in
  flat_map (fun d : Z * Z =>
              let (dx, dy) := d in ray 8 b color (x + dx) (y + dy) dx dy [])
           directions.

Definition is_legal (b : board) (color : string) (m : move) : bool :=
  let (x, y) := m in
  String.eqb (at_ b x y) EMPTY &&
  match flips b color m with [] => false | _ :: _ => true end.

Definition squares : list move :=
  flat_map (fun y => map (fun x => (Z.of_nat x, Z.of_nat y)) (seq 0 8)) (seq 0 8).

(** [board.legal_moves(color)] *)
Definition legal_moves (b : board) (color : string) : list move :=
  filter (is_legal b color) squares.

Definition mem (p : Z * Z) (l : list (Z * Z)) : bool :=
  existsb (fun q => (fst p =? fst q) && (snd p =? snd q)) l.

(** The grid with the squares of [l] given to [color]. *)
Definition paint (b : board) (color : string) (l : list (Z * Z)) : board :=
  map (fun y =>
         map (fun x =>
                if mem (Z.of_nat x, Z.of_nat y) l then color else tiles b y x)
             (seq 0 8))
      (seq 0 8).

(** The effect of [board.process_move(move, color)]: an illegal move leaves
    the board as it is. *)
Definition process_move (b : board) (m : move) (color : string) : board :=
  if is_legal b color m then paint b color (m :: flips b color m) else b.

(** A row of the grid written as a string of eight characters. *)
Fixpoint row (s : string) : list string :=
  match s with
  | EmptyString => []
  | String c s' => String c EmptyString :: row s'
  end.

(** The grid of eight rows. *)
Definition grid (r0 r1 r2 r3 r4 r5 r6 r7 : string) : board :=
  map row [r0; r1; r2; r3; r4; r5; r6; r7].

(** The opening position. *)
Definition opening : board :=
  grid "........" "........" "........" "...WB..."
       "...BW..." "........" "........" "........".

(** Black has exactly two moves: [(4, 0)], which turns three white pieces,
    and [(2, 2)], which turns one. *)
Definition three_or_one : board :=
  grid "BWWW...." "........" "BW......" "........"
       "........" "........" "........" "........".

(** No piece on the board: nobody can move. *)
Definition bare : board :=
  grid "........" "........" "........" "........"
       "........" "........" "........" "........".

(** A heap holding one board, at reference 0. *)
Definition heap_of (b : board) : Heap board := mkHeap (fun _ => b) 1.

End Othello.

(** The Othello board as a [Board] collaborator. *)
Definition othello : BoardAPI :=
  Build_BoardAPI Othello.board Othello.move
                 Othello.legal_moves Othello.process_move Othello.tiles.

(** ** The agent *)

Section Agent.

Context {api : BoardAPI}.

(** [_opponent_color] *)
Definition _opponent_color (color : string) : string :=
  if String.eqb color "W" then "B" else "W".

(** [_count_pieces]: the two nested [range(8)] loops, [j] outside and [i]
    inside, testing [board.tiles[i][j] == color]. *)
Definition _count_pieces (board : Board) (color : string) : Z :=
  fold_left
    (fun count j =>
       fold_left
         (fun count i =>
            if String.eqb (tiles board i j) color then count + 1 else count)
         (seq 0 8) count)
    (seq 0 8) 0.

(** [_cost_compute] *)
Definition _cost_compute (board : Board) (color : string) : Z :=
  let oponent_pieces := _count_pieces board (_opponent_color color) in
  let my_pieces := _count_pieces board color in
  my_pieces - oponent_pieces.

(** [test_board.process_move(move, color)] on the heap. *)
Definition do_process_move (test_board : ref) (move : Move) (color : string)
    (s : Heap Board) : Heap Board :=
  update test_board (fun b => process_move b move color) s.

(** The [for] loop of [_min_score].  [rec] is the recursive call into
    [_max_score] at [depth-1]; [None] means that the recursion ran out of
    fuel. *)
Fixpoint min_loop (rec : ref -> Score -> Score -> Heap Board -> option (Score * Heap Board))
    (board : ref) (color : string) (alpha beta best_score : Score)
    (moves : list Move) (s : Heap Board) : option (Score * Heap Board) :=
  match moves with
  | [] => Some (best_score, s)
  | move :: rest =>
      let (test_board, s1) := deepcopy board s in
      let s2 := do_process_move test_board move color s1 in
      match rec test_board alpha beta s2 with
      | None => None
      | Some (score, s3) =>
          let best_score := if (score <? best_score)%score then score else best_score in
          if (best_score <=? alpha)%score then Some (best_score, s3)
          else min_loop rec board color alpha (Score.min beta best_score) best_score rest s3
      end
  end.

(** The [for] loop of [_max_score]. *)
Fixpoint max_loop (rec : ref -> Score -> Score -> Heap Board -> option (Score * Heap Board))
    (board : ref) (color : string) (alpha beta best_score : Score)
    (moves : list Move) (s : Heap Board) : option (Score * Heap Board) :=
  match moves with
  | [] => Some (best_score, s)
  | move :: rest =>
      let (test_board, s1) := deepcopy board s in
      let s2 := do_process_move test_board move color s1 in
      match rec test_board alpha beta s2 with
      | None => None
      | Some (score, s3) =>
          let best_score := if (score >? best_score)%score then score else best_score in
          if (best_score >=? beta)%score then Some (best_score, s3)
          else max_loop rec board color (Score.max alpha best_score) beta best_score rest s3
      end
  end.

(** [_min_score] and [_max_score].  [depth] is a Python [int]; nothing stops
    it from being negative, in which case [depth == 0] never holds, so the
    recursion is bounded here by [fuel] (the number of nested calls allowed)
    and [None] is returned when it is used up. *)
Fixpoint _min_score (fuel : nat) (board : ref) (color : string)
    (alpha beta : Score) (depth : Z) (s : Heap Board) {struct fuel}
  : option (Score * Heap Board) :=
  match fuel with
  | O => None
  | S fuel' =>
      if depth =? 0 then Some (Fin (_cost_compute (cell s board) color), s)
      else
        min_loop
          (fun test_board alpha beta s' =>
             _max_score fuel' test_board (_opponent_color color) alpha beta (depth - 1) s')
          board color alpha beta INFINITY
          (legal_moves (cell s board) color) s
  end
with _max_score (fuel : nat) (board : ref) (color : string)
    (alpha beta : Score) (depth : Z) (s : Heap Board) {struct fuel}
  : option (Score * Heap Board) :=
  match fuel with
  | O => None
  | S fuel' =>
      if depth =? 0 then Some (Fin (_cost_compute (cell s board) color), s)
      else
        max_loop
          (fun test_board alpha beta s' =>
             _min_score fuel' test_board (_opponent_color color) alpha beta (depth - 1) s')
          board color alpha beta (- INFINITY)%score
          (legal_moves (cell s board) color) s
  end.

(** The attributes of a [GameStrategy] object. *)
Record GameStrategy : Type := mkGameStrategy {
  depth_limit : Z;
  board : ref;
  color : string;
  opponent_color : string
}.

(** [GameStrategy.__init__]: stores its arguments; there is no [raise]. *)
Definition __init__ (depth_limit : Z) (board : ref) (color : string)
  : outcome GameStrategy :=
  Returned (mkGameStrategy depth_limit board color (_opponent_color color)).

(** The [for] loop of [alpha_beta_min_max]. *)
Fixpoint select_loop (rec : ref -> Heap Board -> option (Score * Heap Board))
    (self : GameStrategy) (best_score : Score) (final_move : Move)
    (moves : list Move) (s : Heap Board) : option (Move * Heap Board) :=
  match moves with
  | [] => Some (final_move, s)
  | move :: rest =>
      let (test_board, s1) := deepcopy (board self) s in
      let s2 := do_process_move test_board move (color self) s1 in
      match rec test_board s2 with
      | None => None
      | Some (score, s3) =>
          if (score >? best_score)%score
          then select_loop rec self score move rest s3
          else select_loop rec self best_score final_move rest s3
      end
  end.

(** [alpha_beta_min_max]: [legal_moves[0]] raises [IndexError] on an empty
    list. *)
Definition alpha_beta_min_max (fuel : nat) (self : GameStrategy) (s : Heap Board)
  : option (outcome Move * Heap Board) :=
  let moves := legal_moves (cell s (board self)) (color self) in
  match moves with
  | [] => Some (Raised IndexError, s)
  | final_move :: _ =>
      match
        select_loop
          (fun test_board s' =>
             _min_score fuel test_board (opponent_color self)
                        (- INFINITY)%score INFINITY (depth_limit self - 1) s')
          self (- INFINITY)%score final_move moves s
      with
      | None => None
      | Some (final_move, s') => Some (Returned final_move, s')
      end
  end.

(** [make_move] *)
Definition make_move (fuel : nat) (the_board : ref) (color : string) (s : Heap Board)
  : option (outcome Move * Heap Board) :=
  match __init__ 4 the_board color with
  | Returned game_strategy => alpha_beta_min_max fuel game_strategy s
  | Raised e => Some (Raised e, s)
  end.

(** ** The search as a function of board values

    What [_min_score], [_max_score] and the root loop compute when the heap
    is left out: [process_move] is applied to the value of the board, which is
    what a fresh copy holds.  [min_score_run] and [max_score_run] below prove
    that the heap versions return exactly these values. *)

Fixpoint min_value_loop (rec : Move -> Score -> Score -> Score)
    (alpha beta best_score : Score) (moves : list Move) : Score :=
  match moves with
  | [] => best_score
  | move :: rest =>
      let score := rec move alpha beta in
      let best_score := if (score <? best_score)%score then score else best_score in
      if (best_score <=? alpha)%score then best_score
      else min_value_loop rec alpha (Score.min beta best_score) best_score rest
  end.

Fixpoint max_value_loop (rec : Move -> Score -> Score -> Score)
    (alpha beta best_score : Score) (moves : list Move) : Score :=
  match moves with
  | [] => best_score
  | move :: rest =>
      let score := rec move alpha beta in
      let best_score := if (score >? best_score)%score then score else best_score in
      if (best_score >=? beta)%score then best_score
      else max_value_loop rec (Score.max alpha best_score) beta best_score rest
  end.

Fixpoint min_value (depth : nat) (b : Board) (color : string) (alpha beta : Score)
  : Score :=
  match depth with
  | O => Fin (_cost_compute b color)
  | S depth' =>
      min_value_loop
        (fun move alpha beta =>
           max_value depth' (process_move b move color) (_opponent_color color) alpha beta)
        alpha beta INFINITY (legal_moves b color)
  end
with max_value (depth : nat) (b : Board) (color : string) (alpha beta : Score)
  : Score :=
  match depth with
  | O => Fin (_cost_compute b color)
  | S depth' =>
      max_value_loop
        (fun move alpha beta =>
           min_value depth' (process_move b move color) (_opponent_color color) alpha beta)
        alpha beta (- INFINITY)%score (legal_moves b color)
  end.

(** The root loop over the scores of the moves. *)
Fixpoint select (score : Move -> Score) (best_score : Score) (final_move : Move)
    (moves : list Move) : Move :=
  match moves with
  | [] => final_move
  | move :: rest =>
      if (score move >? best_score)%score
      then select score (score move) move rest
      else select score best_score final_move rest
  end.

(** The score the root loop gives to a move: the result of [_min_score] on
    the board after the move, for the opponent, with the full window and
    [depth_limit - 1] plies left. *)
Definition search_score (self : GameStrategy) (b : Board) (move : Move) : Score :=
  min_value (Z.to_nat (depth_limit self - 1))
            (process_move b move (color self)) (opponent_color self)
            (- INFINITY)%score INFINITY.

(** What [alpha_beta_min_max] returns or raises, as a function of the value
    of the engine's board. *)
Definition selected_move (self : GameStrategy) (b : Board) : outcome Move :=
  match legal_moves b (color self) with
  | [] => Raised IndexError
  | (final_move :: _) as moves =>
      Returned (select (search_score self b) (- INFINITY)%score final_move moves)
  end.

(** ** Unpruned minimax

    The reference the pruned search is compared with: every move of every
    node down to the depth is visited; a minimising node takes the least
    value of its children and [+oo] when it has none, a maximising node the
    greatest and [-oo]; the sides alternate and the leaves are evaluated by
    [_cost_compute] for the side to move there. *)

Fixpoint minimum (l : list Score) : Score :=
  match l with
  | [] => PosInf
  | x :: l' => Score.min x (minimum l')
  end.

Fixpoint maximum (l : list Score) : Score :=
  match l with
  | [] => NegInf
  | x :: l' => Score.max x (maximum l')
  end.

Fixpoint minimax_min (depth : nat) (b : Board) (color : string) : Score :=
  match depth with
  | O => Fin (_cost_compute b color)
  | S depth' =>
      minimum (map (fun move =>
                      minimax_max depth' (process_move b move color) (_opponent_color color))
                   (legal_moves b color))
  end
with minimax_max (depth : nat) (b : Board) (color : string) : Score :=
  match depth with
  | O => Fin (_cost_compute b color)
  | S depth' =>
      maximum (map (fun move =>
                      minimax_min depth' (process_move b move color) (_opponent_color color))
                   (legal_moves b color))
  end.

(** The first move of greatest score: a move is kept against every later
    move that does not score strictly more. *)
Fixpoint argmax_first (score : Move -> Score) (moves : list Move) : option Move :=
  match moves with
  | [] => None
  | move :: rest =>
      match argmax_first score rest with
      | None => Some move
      | Some later => if (score move <? score later)%score then Some later else Some move
      end
  end.

(** The move of a full minimax search of [depth >= 1] plies for [color]. *)
Definition minimax_move (depth : nat) (b : Board) (color : string) : option Move :=
  argmax_first
    (fun move =>
       minimax_min (Nat.pred depth) (process_move b move color) (_opponent_color color))
    (legal_moves b color).

(** The material difference of [color] on a board. *)
Definition material (b : Board) (color : string) : Z :=
  _count_pieces b color - _count_pieces b (_opponent_color color).

(** ** Frames

    [frame s s']: every object of [s] is still there, unchanged, in [s']. *)
Definition frame (s s' : Heap Board) : Prop :=
  (fresh s <= fresh s')%nat /\
  forall r : ref, (r < fresh s)%nat -> cell s' r = cell s r.

(** [brackets v m alpha beta]: what a pruned search value [v] tells about the
    full minimax value [m] of the same node when searched with the window
    [(alpha, beta)]: at or below [alpha] it is an upper bound, strictly inside
    the window it is exact, at or above [beta] it is a lower bound. *)
Definition brackets (v m alpha beta : Score) : Prop :=
  ((v <= alpha)%score -> (m <= v)%score) /\
  ((alpha < v)%score -> (v < beta)%score -> m = v) /\
  ((beta <= v)%score -> (v <= m)%score).

(** ** Measures of the search *)

(** The scores a search can return: an infinity, or a difference of piece
    counts of the 8x8 grid. *)
Definition bounded_score (v : Score) : Prop :=
  v = NegInf \/ v = PosInf \/ exists z, v = Fin z /\ -64 <= z <= 64.

(** The number of moves played by a search of [depth] plies that visits every
    move of every node: one per move of the node and those below it. *)
Fixpoint tree_size (depth : nat) (b : Board) (color : string) : nat :=
  match depth with
  | O => O
  | S depth' =>
      list_sum (map (fun move =>
                       S (tree_size depth' (process_move b move color)
                                    (_opponent_color color)))
                    (legal_moves b color))
  end.

End Agent.

(** ** Scores: the order *)

Module ScoreFacts.

Import Score.

(** The comparisons make a total order. *)

Ltac by_cases :=
  intros; unfold eq, lt, le, min, max, gtb, geb in *;
  repeat match goal with x : t |- _ => destruct x end;
  cbn [ltb leb neg] in *;
  rewrite ?Z.ltb_lt, ?Z.leb_le, ?Z.ltb_ge, ?Z.leb_gt in *;
  try discriminate; try reflexivity; try assumption; try lia.

#[global] Instance eq_equiv : Equivalence eq.
Proof. unfold eq. split; congruence. Qed.

#[global] Instance lt_strorder : StrictOrder lt.
Proof.
  split.
  - intros x H. by_cases.
  - intros x y z Hxy Hyz. by_cases.
Qed.

#[global] Instance lt_compat : Proper (eq ==> eq ==> iff) lt.
Proof. unfold eq. intros x x' Hx y y' Hy. subst. reflexivity. Qed.

Lemma le_lteq (x y : t) : le x y <-> lt x y \/ eq x y.
Proof.
  split.
  - intros H. by_cases; try (left; reflexivity); try (right; reflexivity).
    destruct (Z.eq_dec z z0) as [->|Hne]; [right; reflexivity | left; lia].
  - intros [H|H]; by_cases. injection H as H. lia.
Qed.

Lemma lt_total (x y : t) : lt x y \/ eq x y \/ lt y x.
Proof.
  by_cases; auto.
  destruct (Z.lt_total z z0) as [H|[H|H]]; auto.
  right; left; congruence.
Qed.

Lemma ltb_false (a b : t) : ltb a b = false -> le b a.
Proof. by_cases. Qed.

Lemma leb_false (a b : t) : leb a b = false -> lt b a.
Proof. by_cases. Qed.

Lemma le_NegInf (a : t) : le NegInf a.
Proof. by_cases. Qed.

Lemma le_PosInf (a : t) : le a PosInf.
Proof. by_cases. Qed.

Ltac by_tests :=
  repeat (cbn [ltb leb neg] in *;
          match goal with
          | |- context [if ?c then _ else _] => destruct c eqn:?
          | H : context [if ?c then _ else _] |- _ => destruct c eqn:?
          end);
  cbn [ltb leb neg] in *;
  rewrite ?Z.ltb_lt, ?Z.leb_le, ?Z.ltb_ge, ?Z.leb_gt in *;
  try discriminate; try reflexivity; try (f_equal; lia).

Lemma min_assoc (a b c : t) : min a (min b c) = min (min a b) c.
Proof. unfold min. destruct a, b, c; by_tests. Qed.

Lemma max_assoc (a b c : t) : max a (max b c) = max (max a b) c.
Proof. unfold max, gtb. destruct a, b, c; by_tests. Qed.

Lemma min_PosInf_l (a : t) : min PosInf a = a.
Proof. unfold min. destruct a; reflexivity. Qed.

Lemma min_PosInf_r (a : t) : min a PosInf = a.
Proof. unfold min. destruct a; reflexivity. Qed.

Lemma max_NegInf_l (a : t) : max NegInf a = a.
Proof. unfold max, gtb. destruct a; reflexivity. Qed.

Lemma max_NegInf_r (a : t) : max a NegInf = a.
Proof. unfold max, gtb. destruct a; reflexivity. Qed.

End ScoreFacts.

Module ScoreTac := !MakeOrderTac Score ScoreFacts.

Section Properties.

Context {api : BoardAPI}.

(** ** Reasoning on scores

    The tests of the code are turned into facts of the order and the [order]
    tactic of the Standard Library closes the goal. *)

Ltac score_fold :=
  repeat match goal with
         | H : Score.ltb ?a ?b = true |- _ => change (Score.lt a b) in H
         | H : Score.leb ?a ?b = true |- _ => change (Score.le a b) in H
         | H : Score.ltb ?a ?b = false |- _ => apply ScoreFacts.ltb_false in H
         | H : Score.leb ?a ?b = false |- _ => apply ScoreFacts.leb_false in H
         | |- Score.ltb ?a ?b = true => change (Score.lt a b)
         | |- Score.leb ?a ?b = true => change (Score.le a b)
         end.

Ltac score_cases :=
  repeat match goal with
         | |- context [if ?c then _ else _] => destruct c eqn:?
         | H : context [if ?c then _ else _] |- _ => destruct c eqn:?
         end.

Ltac score_use :=
  repeat match goal with
         | H : _ /\ _ |- _ => destruct H
         | H : ?P -> _ |- _ =>
             let HP := fresh in
             assert (HP : P) by (clear H; ScoreTac.order);
             specialize (H HP)
         end.

Ltac score_absurd :=
  match goal with
  | H : true = false |- _ => discriminate H
  | H : false = true |- _ => discriminate H
  end.

Ltac score_order :=
  unfold INFINITY, Score.min, Score.max in *;
  unfold Score.gtb, Score.geb in *;
  score_cases; score_fold;
  repeat split; intros; score_fold;
  score_use;
  first [ score_absurd | ScoreTac.order ].

(** ** Pruning is sound *)

Lemma brackets_exact (x alpha beta : Score) : brackets x x alpha beta.
Proof. unfold brackets. score_order. Qed.

Lemma brackets_full_window (v m : Score) :
  brackets v m NegInf PosInf -> v = m.
Proof.
  unfold brackets. intros (Hlo & Hin & Hhi).
  destruct (ScoreFacts.lt_total NegInf v) as [H1|[H1|H1]].
  - destruct (ScoreFacts.lt_total v PosInf) as [H2|[H2|H2]].
    + symmetry. auto.
    + assert (Score.le PosInf v) by (rewrite H2; apply ScoreFacts.le_PosInf).
      pose proof (ScoreFacts.le_PosInf m). specialize (Hhi H). ScoreTac.order.
    + pose proof (ScoreFacts.le_PosInf v). ScoreTac.order.
  - assert (Score.le v NegInf) by (rewrite <- H1; apply ScoreFacts.le_NegInf).
    pose proof (ScoreFacts.le_NegInf m). specialize (Hlo H). ScoreTac.order.
  - pose proof (ScoreFacts.le_NegInf v). ScoreTac.order.
Qed.

Lemma min_value_loop_sound
    (rec : Move -> Score -> Score -> Score) (mm : Move -> Score) (alpha beta0 : Score) :
  (forall move a b, (a < b)%score -> brackets (rec move a b) (mm move) a b) ->
  forall moves beta best exact,
    (alpha < beta0)%score -> (alpha < best)%score ->
    beta = Score.min beta0 best ->
    ((best < beta0)%score -> exact = best) ->
    ((beta0 <= best)%score -> (best <= exact)%score) ->
    brackets (min_value_loop rec alpha beta best moves)
             (Score.min exact (minimum (map mm moves))) alpha beta0.
Proof.
  intros Hrec moves.
  induction moves as [|move rest IH]; intros beta best exact Hw Hbest Hbeta Hlt Hge.
  - cbn [min_value_loop map minimum]. rewrite ScoreFacts.min_PosInf_r.
    unfold brackets. score_order.
  - cbn [min_value_loop map minimum].
    assert (Hwin : (alpha < beta)%score) by (subst beta; score_order).
    specialize (Hrec move alpha beta Hwin).
    generalize dependent (rec move alpha beta). intros v Hv.
    generalize dependent (mm move). intros mi Hv.
    destruct (Score.leb (if Score.ltb v best then v else best) alpha) eqn:Hcut.
    + generalize (minimum (map mm rest)). intros R.
      clear IH. subst beta. unfold brackets in *. score_order.
    + rewrite ScoreFacts.min_assoc.
      apply IH; clear IH; subst beta; unfold brackets in *.
      * exact Hw.
      * score_order.
      * score_order.
      * score_order.
      * score_order.
Qed.

Lemma max_value_loop_sound
    (rec : Move -> Score -> Score -> Score) (mm : Move -> Score) (alpha0 beta : Score) :
  (forall move a b, (a < b)%score -> brackets (rec move a b) (mm move) a b) ->
  forall moves alpha best exact,
    (alpha0 < beta)%score -> (best < beta)%score ->
    alpha = Score.max alpha0 best ->
    ((alpha0 < best)%score -> exact = best) ->
    ((best <= alpha0)%score -> (exact <= best)%score) ->
    brackets (max_value_loop rec alpha beta best moves)
             (Score.max exact (maximum (map mm moves))) alpha0 beta.
Proof.
  intros Hrec moves.
  induction moves as [|move rest IH]; intros alpha best exact Hw Hbest Halpha Hgt Hle.
  - cbn [max_value_loop map maximum]. rewrite ScoreFacts.max_NegInf_r.
    unfold brackets. score_order.
  - cbn [max_value_loop map maximum].
    assert (Hwin : (alpha < beta)%score) by (subst alpha; score_order).
    specialize (Hrec move alpha beta Hwin).
    generalize dependent (rec move alpha beta). intros v Hv.
    generalize dependent (mm move). intros mi Hv.
    destruct (Score.geb (if Score.gtb v best then v else best) beta) eqn:Hcut.
    + generalize (maximum (map mm rest)). intros R.
      clear IH. subst alpha. unfold brackets in *. score_order.
    + rewrite ScoreFacts.max_assoc.
      apply IH; clear IH; subst alpha; unfold brackets in *.
      * exact Hw.
      * score_order.
      * score_order.
      * score_order.
      * score_order.
Qed.

(** The pruned values of a node bracket its minimax value, whatever the
    window. *)
Lemma value_sound (depth : nat) :
  (forall b color alpha beta,
      (alpha < beta)%score ->
      brackets (min_value depth b color alpha beta) (minimax_min depth b color) alpha beta) /\
  (forall b color alpha beta,
      (alpha < beta)%score ->
      brackets (max_value depth b color alpha beta) (minimax_max depth b color) alpha beta).
Proof.
  induction depth as [|depth [IHmin IHmax]]; split; intros b color alpha beta Hw.
  - apply brackets_exact.
  - apply brackets_exact.
  - cbn [min_value minimax_min].
    rewrite <- (ScoreFacts.min_PosInf_l (minimum _)).
    apply min_value_loop_sound.
    + intros move a b0 Hab. apply IHmax. exact Hab.
    + exact Hw.
    + pose proof (ScoreFacts.le_PosInf beta). unfold INFINITY. ScoreTac.order.
    + symmetry. apply ScoreFacts.min_PosInf_r.
    + reflexivity.
    + intros _. reflexivity.
  - cbn [max_value minimax_max].
    rewrite <- (ScoreFacts.max_NegInf_l (maximum _)).
    apply max_value_loop_sound.
    + intros move a b0 Hab. apply IHmin. exact Hab.
    + exact Hw.
    + pose proof (ScoreFacts.le_NegInf alpha). unfold INFINITY. cbn [Score.neg].
      ScoreTac.order.
    + symmetry. apply ScoreFacts.max_NegInf_r.
    + reflexivity.
    + intros _. reflexivity.
Qed.

(** With the full window the pruned value is the minimax value. *)
Lemma min_value_full_window (depth : nat) (b : Board) (color : string) :
  min_value depth b color (- INFINITY)%score INFINITY = minimax_min depth b color.
Proof.
  apply brackets_full_window. apply (proj1 (value_sound depth)). reflexivity.
Qed.

(** ** The heap during the search *)

Lemma frame_refl (s : Heap Board) : frame s s.
Proof. split; [apply Nat.le_refl | reflexivity]. Qed.

Lemma frame_trans (s1 s2 s3 : Heap Board) :
  frame s1 s2 -> frame s2 s3 -> frame s1 s3.
Proof.
  intros [Hf12 Hc12] [Hf23 Hc23]. split.
  - eapply Nat.le_trans; eassumption.
  - intros r Hr. rewrite Hc23 by lia. apply Hc12. exact Hr.
Qed.

(** A move played on a fresh copy: the objects that were there are untouched
    and the copy holds the board after the move. *)
Lemma copy_then_move (r : ref) (move : Move) (color : string) (s : Heap Board) :
  let test_board := fst (deepcopy r s) in
  let s2 := do_process_move test_board move color (snd (deepcopy r s)) in
  frame s s2 /\ (test_board < fresh s2)%nat /\
  cell s2 test_board = process_move (cell s r) move color.
Proof.
  unfold frame, do_process_move, update, deepcopy. cbn [fst snd cell fresh].
  repeat split.
  - lia.
  - intros r' Hr'.
    destruct (Nat.eqb_spec r' (fresh s)) as [->|Hne]; [lia | reflexivity].
  - lia.
  - rewrite Nat.eqb_refl. reflexivity.
Qed.

Lemma min_loop_run
    (rec : ref -> Score -> Score -> Heap Board -> option (Score * Heap Board))
    (prec : Board -> Score -> Score -> Score) (r : ref) (color : string) (alpha : Score) :
  (forall tb a b s2, (tb < fresh s2)%nat ->
     exists s3, rec tb a b s2 = Some (prec (cell s2 tb) a b, s3) /\ frame s2 s3) ->
  forall moves beta best s, (r < fresh s)%nat ->
    exists s',
      min_loop rec r color alpha beta best moves s =
      Some (min_value_loop (fun m a b => prec (process_move (cell s r) m color) a b)
                           alpha beta best moves, s') /\
      frame s s'.
Proof.
  intros Hrec moves.
  induction moves as [|move rest IH]; intros beta best s Hr.
  - exists s. split; [reflexivity | apply frame_refl].
  - destruct (copy_then_move r move color s) as (Hf & Htb & Hcell).
    cbn [min_loop min_value_loop]. unfold deepcopy in *. cbn [fst snd] in *.
    set (s2 := do_process_move (fresh s) move color _) in *.
    destruct (Hrec (fresh s) alpha beta s2 Htb) as (s3 & -> & Hf3).
    rewrite Hcell.
    set (score := prec _ alpha beta).
    destruct (Score.leb _ alpha).
    + exists s3. split; [reflexivity | eapply frame_trans; eassumption].
    + pose proof (frame_trans _ _ _ Hf Hf3) as Hf13.
      destruct (IH (Score.min beta (if Score.ltb score best then score else best))
                   (if Score.ltb score best then score else best) s3)
        as (s' & Hrun & Hf').
      { destruct Hf13. lia. }
      exists s'. split.
      * rewrite Hrun. destruct Hf13 as [_ Hc]. rewrite (Hc r Hr). reflexivity.
      * eapply frame_trans; eassumption.
Qed.

Lemma max_loop_run
    (rec : ref -> Score -> Score -> Heap Board -> option (Score * Heap Board))
    (prec : Board -> Score -> Score -> Score) (r : ref) (color : string) (beta : Score) :
  (forall tb a b s2, (tb < fresh s2)%nat ->
     exists s3, rec tb a b s2 = Some (prec (cell s2 tb) a b, s3) /\ frame s2 s3) ->
  forall moves alpha best s, (r < fresh s)%nat ->
    exists s',
      max_loop rec r color alpha beta best moves s =
      Some (max_value_loop (fun m a b => prec (process_move (cell s r) m color) a b)
                           alpha beta best moves, s') /\
      frame s s'.
Proof.
  intros Hrec moves.
  induction moves as [|move rest IH]; intros alpha best s Hr.
  - exists s. split; [reflexivity | apply frame_refl].
  - destruct (copy_then_move r move color s) as (Hf & Htb & Hcell).
    cbn [max_loop max_value_loop]. unfold deepcopy in *. cbn [fst snd] in *.
    set (s2 := do_process_move (fresh s) move color _) in *.
    destruct (Hrec (fresh s) alpha beta s2 Htb) as (s3 & -> & Hf3).
    rewrite Hcell.
    set (score := prec _ alpha beta).
    destruct (Score.geb _ beta).
    + exists s3. split; [reflexivity | eapply frame_trans; eassumption].
    + pose proof (frame_trans _ _ _ Hf Hf3) as Hf13.
      destruct (IH (Score.max alpha (if Score.gtb score best then score else best))
                   (if Score.gtb score best then score else best) s3)
        as (s' & Hrun & Hf').
      { destruct Hf13. lia. }
      exists s'. split.
      * rewrite Hrun. destruct Hf13 as [_ Hc]. rewrite (Hc r Hr). reflexivity.
      * eapply frame_trans; eassumption.
Qed.

(** With more fuel than plies, [_min_score] and [_max_score] return the
    values of the board they are given and leave the heap they found in
    place. *)
Lemma score_run (fuel : nat) :
  forall depth : nat, (depth < fuel)%nat ->
    (forall r color alpha beta s, (r < fresh s)%nat ->
       exists s',
         _min_score fuel r color alpha beta (Z.of_nat depth) s =
         Some (min_value depth (cell s r) color alpha beta, s') /\ frame s s') /\
    (forall r color alpha beta s, (r < fresh s)%nat ->
       exists s',
         _max_score fuel r color alpha beta (Z.of_nat depth) s =
         Some (max_value depth (cell s r) color alpha beta, s') /\ frame s s').
Proof.
  induction fuel as [|fuel IH]; intros depth Hd; [lia|].
  destruct depth as [|depth].
  - split; intros r color alpha beta s Hr; exists s;
      (split; [reflexivity | apply frame_refl]).
  - assert (Hnz : (Z.of_nat (S depth) =? 0) = false) by (apply Z.eqb_neq; lia).
    assert (Hpred : Z.of_nat (S depth) - 1 = Z.of_nat depth) by lia.
    destruct (IH depth ltac:(lia)) as [IHmin IHmax].
    split; intros r color alpha beta s Hr.
    + cbn [_min_score min_value]. rewrite Hnz, Hpred.
      apply (min_loop_run _ (fun b => max_value depth b (_opponent_color color))).
      * intros tb a b s2 Htb. apply IHmax. exact Htb.
      * exact Hr.
    + cbn [_max_score max_value]. rewrite Hnz, Hpred.
      apply (max_loop_run _ (fun b => min_value depth b (_opponent_color color))).
      * intros tb a b s2 Htb. apply IHmin. exact Htb.
      * exact Hr.
Qed.

Lemma min_score_run (fuel : nat) (depth : Z) (r : ref) (color : string)
    (alpha beta : Score) (s : Heap Board) :
  0 <= depth -> depth < Z.of_nat fuel -> (r < fresh s)%nat ->
  exists s',
    _min_score fuel r color alpha beta depth s =
    Some (min_value (Z.to_nat depth) (cell s r) color alpha beta, s') /\ frame s s'.
Proof.
  intros H0 Hf Hr.
  destruct (score_run fuel (Z.to_nat depth) ltac:(lia)) as [Hmin _].
  specialize (Hmin r color alpha beta s Hr).
  rewrite Z2Nat.id in Hmin by exact H0. exact Hmin.
Qed.

Lemma max_score_run (fuel : nat) (depth : Z) (r : ref) (color : string)
    (alpha beta : Score) (s : Heap Board) :
  0 <= depth -> depth < Z.of_nat fuel -> (r < fresh s)%nat ->
  exists s',
    _max_score fuel r color alpha beta depth s =
    Some (max_value (Z.to_nat depth) (cell s r) color alpha beta, s') /\ frame s s'.
Proof.
  intros H0 Hf Hr.
  destruct (score_run fuel (Z.to_nat depth) ltac:(lia)) as [_ Hmax].
  specialize (Hmax r color alpha beta s Hr).
  rewrite Z2Nat.id in Hmax by exact H0. exact Hmax.
Qed.

Lemma select_loop_run
    (rec : ref -> Heap Board -> option (Score * Heap Board))
    (prec : Board -> Score) (self : GameStrategy) :
  (forall tb s2, (tb < fresh s2)%nat ->
     exists s3, rec tb s2 = Some (prec (cell s2 tb), s3) /\ frame s2 s3) ->
  forall moves best final s, (board self < fresh s)%nat ->
    exists s',
      select_loop rec self best final moves s =
      Some (select (fun m => prec (process_move (cell s (board self)) m (color self)))
                   best final moves, s') /\
      frame s s'.
Proof.
  intros Hrec moves.
  induction moves as [|move rest IH]; intros best final s Hr.
  - exists s. split; [reflexivity | apply frame_refl].
  - destruct (copy_then_move (board self) move (color self) s) as (Hf & Htb & Hcell).
    cbn [select_loop select]. unfold deepcopy in *. cbn [fst snd] in *.
    set (s2 := do_process_move (fresh s) move (color self) _) in *.
    destruct (Hrec (fresh s) s2 Htb) as (s3 & -> & Hf3).
    rewrite Hcell.
    pose proof (frame_trans _ _ _ Hf Hf3) as Hf13.
    assert (Hr3 : (board self < fresh s3)%nat) by (destruct Hf13; lia).
    assert (Hc3 : cell s3 (board self) = cell s (board self))
      by (destruct Hf13 as [_ Hc]; apply Hc; exact Hr).
    destruct (Score.gtb _ best).
    + destruct (IH (prec (process_move (cell s (board self)) move (color self)))
                   move s3 Hr3) as (s' & -> & Hf').
      exists s'. rewrite Hc3. split; [reflexivity | eapply frame_trans; eassumption].
    + destruct (IH best final s3 Hr3) as (s' & -> & Hf').
      exists s'. rewrite Hc3. split; [reflexivity | eapply frame_trans; eassumption].
Qed.

(** The whole search: with [depth_limit >= 1] and as much fuel as plies it
    returns [selected_move] of the engine's board, and every object of the
    heap is as it was. *)
Lemma alpha_beta_min_max_run (fuel : nat) (self : GameStrategy) (s : Heap Board) :
  1 <= depth_limit self -> depth_limit self <= Z.of_nat fuel ->
  (board self < fresh s)%nat ->
  exists s',
    alpha_beta_min_max fuel self s = Some (selected_move self (cell s (board self)), s') /\
    frame s s'.
Proof.
  intros Hd Hfuel Hr.
  unfold alpha_beta_min_max, selected_move.
  destruct (legal_moves (cell s (board self)) (color self)) as [|final_move rest] eqn:Hmoves.
  - exists s. split; [reflexivity | apply frame_refl].
  - destruct (select_loop_run
                (fun test_board s' =>
                   _min_score fuel test_board (opponent_color self)
                              (- INFINITY)%score INFINITY (depth_limit self - 1) s')
                (fun b => min_value (Z.to_nat (depth_limit self - 1)) b
                                    (opponent_color self) (- INFINITY)%score INFINITY)
                self) with (moves := final_move :: rest) (best := (- INFINITY)%score)
                           (final := final_move) (s := s)
      as (s' & Hrun & Hf).
    + intros tb s2 Htb. apply min_score_run; [lia | lia | exact Htb].
    + exact Hr.
    + exists s'. rewrite Hrun. split; [reflexivity | exact Hf].
Qed.

(** Whatever the depth and the fuel, a search that returns has left every
    object of the heap as it was. *)
Lemma min_loop_frame
    (rec : ref -> Score -> Score -> Heap Board -> option (Score * Heap Board))
    (r : ref) (color : string) (alpha : Score) :
  (forall tb a b s2 v s3, rec tb a b s2 = Some (v, s3) -> frame s2 s3) ->
  forall moves beta best s v s',
    min_loop rec r color alpha beta best moves s = Some (v, s') -> frame s s'.
Proof.
  intros Hrec moves.
  induction moves as [|move rest IH]; intros beta best s v s' Hrun.
  - injection Hrun as _ <-. apply frame_refl.
  - destruct (copy_then_move r move color s) as (Hf & _ & _).
    cbn [min_loop] in Hrun. unfold deepcopy in *. cbn [fst snd] in *.
    set (s2 := do_process_move (fresh s) move color _) in *.
    destruct (rec (fresh s) alpha beta s2) as [[score s3]|] eqn:Hcall; [|discriminate].
    apply Hrec in Hcall.
    destruct (Score.leb _ alpha).
    + injection Hrun as _ <-. eapply frame_trans; eassumption.
    + apply IH in Hrun. eauto using frame_trans.
Qed.

Lemma max_loop_frame
    (rec : ref -> Score -> Score -> Heap Board -> option (Score * Heap Board))
    (r : ref) (color : string) (beta : Score) :
  (forall tb a b s2 v s3, rec tb a b s2 = Some (v, s3) -> frame s2 s3) ->
  forall moves alpha best s v s',
    max_loop rec r color alpha beta best moves s = Some (v, s') -> frame s s'.
Proof.
  intros Hrec moves.
  induction moves as [|move rest IH]; intros alpha best s v s' Hrun.
  - injection Hrun as _ <-. apply frame_refl.
  - destruct (copy_then_move r move color s) as (Hf & _ & _).
    cbn [max_loop] in Hrun. unfold deepcopy in *. cbn [fst snd] in *.
    set (s2 := do_process_move (fresh s) move color _) in *.
    destruct (rec (fresh s) alpha beta s2) as [[score s3]|] eqn:Hcall; [|discriminate].
    apply Hrec in Hcall.
    destruct (Score.geb _ beta).
    + injection Hrun as _ <-. eapply frame_trans; eassumption.
    + apply IH in Hrun. eauto using frame_trans.
Qed.

Lemma score_frame (fuel : nat) :
  (forall r color alpha beta depth s v s',
      _min_score fuel r color alpha beta depth s = Some (v, s') -> frame s s') /\
  (forall r color alpha beta depth s v s',
      _max_score fuel r color alpha beta depth s = Some (v, s') -> frame s s').
Proof.
  induction fuel as [|fuel [IHmin IHmax]]; split;
    intros r color alpha beta depth s v s' Hrun; try discriminate.
  - cbn [_min_score] in Hrun. destruct (depth =? 0).
    + injection Hrun as _ <-. apply frame_refl.
    + eapply min_loop_frame; [|exact Hrun].
      intros tb a b s2 v2 s3 Hcall. eapply IHmax. exact Hcall.
  - cbn [_max_score] in Hrun. destruct (depth =? 0).
    + injection Hrun as _ <-. apply frame_refl.
    + eapply max_loop_frame; [|exact Hrun].
      intros tb a b s2 v2 s3 Hcall. eapply IHmin. exact Hcall.
Qed.

Lemma select_loop_frame
    (rec : ref -> Heap Board -> option (Score * Heap Board)) (self : GameStrategy) :
  (forall tb s2 v s3, rec tb s2 = Some (v, s3) -> frame s2 s3) ->
  forall moves best final s m s',
    select_loop rec self best final moves s = Some (m, s') -> frame s s'.
Proof.
  intros Hrec moves.
  induction moves as [|move rest IH]; intros best final s m s' Hrun.
  - injection Hrun as _ <-. apply frame_refl.
  - destruct (copy_then_move (board self) move (color self) s) as (Hf & _ & _).
    cbn [select_loop] in Hrun. unfold deepcopy in *. cbn [fst snd] in *.
    set (s2 := do_process_move (fresh s) move (color self) _) in *.
    destruct (rec (fresh s) s2) as [[score s3]|] eqn:Hcall; [|discriminate].
    apply Hrec in Hcall.
    destruct (Score.gtb score best); apply IH in Hrun; eauto using frame_trans.
Qed.

Lemma alpha_beta_min_max_frame (fuel : nat) (self : GameStrategy) (s : Heap Board)
    (out : outcome Move) (s' : Heap Board) :
  alpha_beta_min_max fuel self s = Some (out, s') -> frame s s'.
Proof.
  unfold alpha_beta_min_max.
  destruct (legal_moves (cell s (board self)) (color self)) as [|final_move rest].
  - intros H. injection H as _ <-. apply frame_refl.
  - destruct (select_loop _ self _ final_move (final_move :: rest) s)
      as [[m s1]|] eqn:Hrun; [|discriminate].
    intros H. injection H as _ <-.
    eapply select_loop_frame; [|exact Hrun].
    intros tb s2 v s3 Hcall. eapply (proj1 (score_frame fuel)). exact Hcall.
Qed.

(** ** The root loop picks the first move of greatest score *)

Lemma select_argmax (score : Move -> Score) (moves : list Move) :
  forall best final,
    select score best final moves =
    match argmax_first score moves with
    | None => final
    | Some m => if (best <? score m)%score then m else final
    end.
Proof.
  induction moves as [|move rest IH]; intros best final; [reflexivity|].
  cbn [select argmax_first]. unfold Score.gtb. rewrite !IH.
  destruct (argmax_first score rest) as [later|]; [|reflexivity].
  destruct (Score.ltb (score move) (score later)) eqn:Hxy,
           (Score.ltb best (score move)) eqn:Hbx;
    rewrite ?Hbx;
    destruct (Score.ltb best (score later)) eqn:Hby;
    try reflexivity; exfalso; score_order.
Qed.

Lemma select_root (score : Move -> Score) (final_move : Move) (rest : list Move) :
  argmax_first score (final_move :: rest) =
  Some (select score (- INFINITY)%score final_move (final_move :: rest)).
Proof.
  rewrite select_argmax. cbn [argmax_first].
  destruct (argmax_first score rest) as [later|].
  - destruct (Score.ltb (score final_move) (score later)) eqn:Hlt.
    + pose proof (ScoreFacts.le_NegInf (score final_move)).
      destruct (Score.ltb (Score.neg INFINITY) (score later)) eqn:Hneg; [reflexivity|].
      exfalso. unfold INFINITY in *. cbn [Score.neg] in *. score_order.
    + destruct (Score.ltb (Score.neg INFINITY) (score final_move)); reflexivity.
  - destruct (Score.ltb (Score.neg INFINITY) (score final_move)); reflexivity.
Qed.

(** What [argmax_first] returns: a move of the list, no move scores more,
    and every move before it scores strictly less. *)
Lemma argmax_first_spec (score : Move -> Score) (moves : list Move) (m : Move) :
  argmax_first score moves = Some m ->
  exists k,
    nth_error moves k = Some m /\
    (forall j mj, nth_error moves j = Some mj -> (score mj <= score m)%score) /\
    (forall j mj, (j < k)%nat -> nth_error moves j = Some mj ->
                  (score mj < score m)%score).
Proof.
  revert m.
  induction moves as [|move rest IH]; intros m Hm; [discriminate|].
  cbn [argmax_first] in Hm.
  destruct (argmax_first score rest) as [later|] eqn:Hrest.
  - destruct (IH later eq_refl) as (k & Hk & Hle & Hlt).
    destruct (Score.ltb (score move) (score later)) eqn:Hcmp;
      injection Hm as <-.
    + exists (S k). split; [exact Hk|]. split.
      * intros [|j] mj Hj; cbn in Hj.
        -- injection Hj as <-. score_order.
        -- eapply Hle. exact Hj.
      * intros [|j] mj Hjk Hj; cbn in Hj.
        -- injection Hj as <-. exact Hcmp.
        -- apply (Hlt j); [lia | exact Hj].
    + exists 0%nat. split; [reflexivity|]. split.
      * intros [|j] mj Hj; cbn in Hj.
        -- injection Hj as <-. score_order.
        -- specialize (Hle j mj Hj). score_order.
      * intros j mj Hjk. lia.
  - injection Hm as <-. exists 0%nat. split; [reflexivity|]. split.
    + intros [|j] mj Hj; cbn in Hj.
      * injection Hj as <-. score_order.
      * destruct rest; [destruct j; discriminate|].
        cbn in Hrest. destruct (argmax_first score rest); [|discriminate].
        destruct (Score.ltb _ _); discriminate.
    + intros j mj Hjk. lia.
Qed.

Lemma argmax_first_ext (f g : Move -> Score) (moves : list Move) :
  (forall m, f m = g m) -> argmax_first f moves = argmax_first g moves.
Proof.
  intros Hfg. induction moves as [|move rest IH]; [reflexivity|].
  cbn [argmax_first]. rewrite IH.
  destruct (argmax_first g rest) as [later|]; [|reflexivity].
  rewrite !Hfg. reflexivity.
Qed.

Lemma argmax_first_In (score : Move -> Score) (moves : list Move) (m : Move) :
  argmax_first score moves = Some m -> In m moves.
Proof.
  intros H. destruct (argmax_first_spec _ _ _ H) as (k & Hk & _).
  eapply nth_error_In. exact Hk.
Qed.

(** The engine built by [__init__]. *)
Lemma init_fields (d : Z) (rb : ref) (c : string) (self : GameStrategy) :
  __init__ d rb c = Returned self ->
  depth_limit self = d /\ board self = rb /\ color self = c /\
  opponent_color self = _opponent_color c.
Proof. intros H. injection H as <-. repeat split. Qed.

(** The search of a constructed engine on a position with a legal move: it
    returns the first move of greatest [search_score]. *)
Lemma search_returns_argmax (fuel : nat) (d : Z) (rb : ref) (c : string)
    (self : GameStrategy) (s : Heap Board) :
  __init__ d rb c = Returned self ->
  1 <= d -> d <= Z.of_nat fuel -> (rb < fresh s)%nat ->
  legal_moves (cell s rb) c <> [] ->
  exists m s',
    alpha_beta_min_max fuel self s = Some (Returned m, s') /\
    argmax_first (search_score self (cell s rb)) (legal_moves (cell s rb) c) = Some m /\
    frame s s'.
Proof.
  intros Hinit Hd Hfuel Hr Hmoves.
  destruct (init_fields _ _ _ _ Hinit) as (Hdl & Hb & Hc & _).
  destruct (alpha_beta_min_max_run fuel self s) as (s' & Hrun & Hf);
    [lia | lia | rewrite Hb; exact Hr |].
  rewrite Hb in Hrun. unfold selected_move in Hrun. rewrite Hc in Hrun.
  destruct (legal_moves (cell s rb) c) as [|final_move rest]; [congruence|].
  eexists; exists s'. split; [exact Hrun|]. split; [apply select_root | exact Hf].
Qed.

(** The pruned search of a constructed engine returns the move of the
    unpruned search. *)
Lemma search_is_minimax (fuel : nat) (d : Z) (rb : ref) (c : string)
    (self : GameStrategy) (s : Heap Board) :
  __init__ d rb c = Returned self ->
  1 <= d -> d <= Z.of_nat fuel -> (rb < fresh s)%nat ->
  legal_moves (cell s rb) c <> [] ->
  exists m s',
    alpha_beta_min_max fuel self s = Some (Returned m, s') /\
    minimax_move (Z.to_nat d) (cell s rb) c = Some m.
Proof.
  intros Hinit Hd Hfuel Hr Hmoves.
  destruct (search_returns_argmax fuel d rb c self s Hinit Hd Hfuel Hr Hmoves)
    as (m & s' & Hrun & Hbest & _).
  exists m, s'. split; [exact Hrun|].
  destruct (init_fields _ _ _ _ Hinit) as (Hdl & _ & Hc & Hopp).
  unfold minimax_move. rewrite <- Hbest.
  assert (Hscore : forall move,
             search_score self (cell s rb) move =
             minimax_min (Nat.pred (Z.to_nat d)) (process_move (cell s rb) move c)
                         (_opponent_color c)).
  { intros move. unfold search_score. rewrite Hdl, Hc, Hopp.
    replace (Z.to_nat (d - 1)) with (Nat.pred (Z.to_nat d)) by lia.
    apply min_value_full_window. }
  apply argmax_first_ext. intros move. symmetry. apply Hscore.
Qed.

(** ** One ply

    With [depth_limit = 1] the root loop calls [_min_score] with depth 0 and
    the opponent's color, so a move is scored by [_cost_compute] for the
    opponent: the opponent's pieces minus the engine's. *)

Lemma opponent_of_opponent (c : string) :
  c = "B"%string \/ c = "W"%string -> _opponent_color (_opponent_color c) = c.
Proof. intros [-> | ->]; reflexivity. Qed.

Lemma cost_for_opponent (b : Board) (c : string) :
  c = "B"%string \/ c = "W"%string ->
  _cost_compute b (_opponent_color c) = - material b c.
Proof.
  intros Hc. unfold _cost_compute, material.
  rewrite (opponent_of_opponent c Hc). lia.
Qed.

Lemma search_score_one_ply (self : GameStrategy) (b : Board) (move : Move) :
  depth_limit self = 1 ->
  search_score self b move =
  Fin (_cost_compute (process_move b move (color self)) (opponent_color self)).
Proof. intros Hd. unfold search_score. rewrite Hd. reflexivity. Qed.

(** So the move returned with [depth_limit = 1] is the first move that leaves
    the engine the least material difference. *)
Lemma one_ply_minimises_material (fuel : nat) (rb : ref) (c : string)
    (self : GameStrategy) (s : Heap Board) :
  __init__ 1 rb c = Returned self ->
  c = "B"%string \/ c = "W"%string ->
  (1 <= fuel)%nat -> (rb < fresh s)%nat ->
  legal_moves (cell s rb) c <> [] ->
  exists m s',
    alpha_beta_min_max fuel self s = Some (Returned m, s') /\
    argmax_first (fun move => Fin (- material (process_move (cell s rb) move c) c))
                 (legal_moves (cell s rb) c) = Some m.
Proof.
  intros Hinit Hc Hfuel Hr Hmoves.
  destruct (search_returns_argmax fuel 1 rb c self s Hinit) as (m & s' & Hrun & Hbest & _);
    [lia | lia | exact Hr | exact Hmoves |].
  exists m, s'. split; [exact Hrun|].
  rewrite <- Hbest. apply argmax_first_ext. intros move.
  destruct (init_fields _ _ _ _ Hinit) as (Hdl & _ & Hcol & Hopp).
  rewrite (search_score_one_ply self _ move Hdl), Hcol, Hopp.
  rewrite cost_for_opponent by exact Hc. reflexivity.
Qed.

(** ** Properties of the search *)

(** C2: for every root position with a legal move and every
    [depth_limit >= 1], the move returned by the pruned search is the move of
    the full minimax search of the same depth, with the same evaluation of the
    leaves, the same alternation of the sides, the same values for nodes
    without moves and the same choice of the first best move. *)
Theorem alpha_beta_equals_minimax (fuel : nat) (d : Z) (rb : ref) (c : string)
    (self : GameStrategy) (s : Heap Board) :
  __init__ d rb c = Returned self ->
  1 <= d -> d <= Z.of_nat fuel -> (rb < fresh s)%nat ->
  legal_moves (cell s rb) c <> [] ->
  exists m s',
    alpha_beta_min_max fuel self s = Some (Returned m, s') /\
    minimax_move (Z.to_nat d) (cell s rb) c = Some m.
Proof. apply search_is_minimax. Qed.

(** C3, as the code has it: [__init__] checks nothing; whatever the depth
    limit, zero and negative values included, it returns an engine that holds
    the depth limit, the board and the two colors. *)
Theorem init_accepts_any_depth_limit (d : Z) (rb : ref) (c : string) :
  __init__ d rb c = Returned (mkGameStrategy d rb c (_opponent_color c)).
Proof. reflexivity. Qed.

(** C4, as the code has it: on a root position without a legal move the
    subscript [legal_moves[0]] raises [IndexError]; no move is returned, no
    search is started and the heap is as it was. *)
Theorem no_legal_move_raises_IndexError (fuel : nat) (self : GameStrategy)
    (s : Heap Board) :
  legal_moves (cell s (board self)) (color self) = [] ->
  alpha_beta_min_max fuel self s = Some (Raised IndexError, s).
Proof. intros Hmoves. unfold alpha_beta_min_max. rewrite Hmoves. reflexivity. Qed.

(** C5: the best candidate of the root loop is replaced on a strictly greater
    score only, so the move returned is the first move, in the order of
    [legal_moves], among those of greatest search score: no move scores more
    and every earlier move scores strictly less. *)
Theorem first_best_move_wins (fuel : nat) (d : Z) (rb : ref) (c : string)
    (self : GameStrategy) (s : Heap Board) :
  __init__ d rb c = Returned self ->
  1 <= d -> d <= Z.of_nat fuel -> (rb < fresh s)%nat ->
  legal_moves (cell s rb) c <> [] ->
  (forall score best final move rest,
      (score move <= best)%score ->
      select score best final (move :: rest) = select score best final rest) /\
  exists k m s',
    alpha_beta_min_max fuel self s = Some (Returned m, s') /\
    nth_error (legal_moves (cell s rb) c) k = Some m /\
    (forall j mj, nth_error (legal_moves (cell s rb) c) j = Some mj ->
                  (search_score self (cell s rb) mj <= search_score self (cell s rb) m)%score) /\
    (forall j mj, (j < k)%nat -> nth_error (legal_moves (cell s rb) c) j = Some mj ->
                  (search_score self (cell s rb) mj < search_score self (cell s rb) m)%score).
Proof.
  intros Hinit Hd Hfuel Hr Hmoves. split.
  - intros score best final move rest Hle. cbn [select]. unfold Score.gtb.
    destruct (Score.ltb best (score move)) eqn:Hlt; [|reflexivity].
    exfalso. score_order.
  - destruct (search_returns_argmax fuel d rb c self s Hinit Hd Hfuel Hr Hmoves)
      as (m & s' & Hrun & Hbest & _).
    destruct (argmax_first_spec _ _ _ Hbest) as (k & Hk & Hle & Hlt).
    exists k, m, s'. auto.
Qed.

(** C6: on a root position with a legal move the move returned is one of the
    moves listed by [legal_moves] for the engine's color. *)
Theorem returned_move_is_legal (fuel : nat) (d : Z) (rb : ref) (c : string)
    (self : GameStrategy) (s : Heap Board) :
  __init__ d rb c = Returned self ->
  1 <= d -> d <= Z.of_nat fuel -> (rb < fresh s)%nat ->
  legal_moves (cell s rb) c <> [] ->
  exists m s',
    alpha_beta_min_max fuel self s = Some (Returned m, s') /\
    In m (legal_moves (cell s rb) c).
Proof.
  intros Hinit Hd Hfuel Hr Hmoves.
  destruct (search_returns_argmax fuel d rb c self s Hinit Hd Hfuel Hr Hmoves)
    as (m & s' & Hrun & Hbest & _).
  exists m, s'. split; [exact Hrun|]. eapply argmax_first_In. exact Hbest.
Qed.

(** C7: with at least one ply left and no legal move for the side,
    [_min_score] returns [+oo] and [_max_score] returns [-oo], whatever the
    window. *)
Theorem no_move_returns_initial_bound (fuel : nat) (r : ref) (color : string)
    (alpha beta : Score) (depth : Z) (s : Heap Board) :
  1 <= depth ->
  legal_moves (cell s r) color = [] ->
  _min_score (S fuel) r color alpha beta depth s = Some (PosInf, s) /\
  _max_score (S fuel) r color alpha beta depth s = Some (NegInf, s).
Proof.
  intros Hd Hmoves.
  assert (Hnz : (depth =? 0) = false) by (apply Z.eqb_neq; lia).
  cbn [_min_score _max_score]. rewrite Hnz, Hmoves. split; reflexivity.
Qed.

(** C8: the search leaves every board object of the heap as it was, the
    engine's own board included: moves are played on fresh copies only.  This
    holds for every run that returns or raises, and with
    [depth_limit >= 1] every run does. *)
Theorem search_leaves_boards_unchanged (fuel : nat) (self : GameStrategy)
    (s : Heap Board) :
  (forall out s',
      alpha_beta_min_max fuel self s = Some (out, s') ->
      forall r, (r < fresh s)%nat -> cell s' r = cell s r) /\
  (1 <= depth_limit self -> depth_limit self <= Z.of_nat fuel ->
   (board self < fresh s)%nat ->
   exists out s',
     alpha_beta_min_max fuel self s = Some (out, s') /\
     cell s' (board self) = cell s (board self)).
Proof.
  split.
  - intros out s' Hrun.
    apply alpha_beta_min_max_frame in Hrun. destruct Hrun as [_ Hc]. exact Hc.
  - intros Hd Hfuel Hr.
    destruct (alpha_beta_min_max_run fuel self s Hd Hfuel Hr) as (s' & Hrun & [_ Hc]).
    eexists; exists s'. split; [exact Hrun | apply Hc; exact Hr].
Qed.

(** C9: a call with depth 0 returns the static evaluation and a call without
    a legal move returns its bound, both without a nested call; a call with
    another depth makes its nested calls with [depth - 1]; so with a depth
    [>= 0] the recursion is no deeper than the depth, and with
    [depth_limit >= 1] the whole search returns or raises. *)
Theorem search_terminates (fuel : nat) (r : ref) (color : string)
    (alpha beta : Score) (depth : Z) (s : Heap Board) :
  (_min_score 1 r color alpha beta 0 s = Some (Fin (_cost_compute (cell s r) color), s) /\
   _max_score 1 r color alpha beta 0 s = Some (Fin (_cost_compute (cell s r) color), s)) /\
  (legal_moves (cell s r) color = [] ->
   _min_score 1 r color alpha beta depth s <> None /\
   _max_score 1 r color alpha beta depth s <> None) /\
  (depth <> 0 ->
   _min_score (S fuel) r color alpha beta depth s =
   min_loop (fun test_board alpha beta s' =>
               _max_score fuel test_board (_opponent_color color) alpha beta (depth - 1) s')
            r color alpha beta INFINITY (legal_moves (cell s r) color) s /\
   _max_score (S fuel) r color alpha beta depth s =
   max_loop (fun test_board alpha beta s' =>
               _min_score fuel test_board (_opponent_color color) alpha beta (depth - 1) s')
            r color alpha beta (- INFINITY)%score (legal_moves (cell s r) color) s) /\
  (0 <= depth -> depth < Z.of_nat fuel -> (r < fresh s)%nat ->
   (exists v s', _min_score fuel r color alpha beta depth s = Some (v, s')) /\
   (exists v s', _max_score fuel r color alpha beta depth s = Some (v, s'))) /\
  (forall self : GameStrategy,
      1 <= depth_limit self -> depth_limit self <= Z.of_nat fuel ->
      (board self < fresh s)%nat ->
      exists out s', alpha_beta_min_max fuel self s = Some (out, s')).
Proof.
  split; [split; reflexivity|].
  split.
  { intros Hmoves. cbn [_min_score _max_score]. rewrite Hmoves.
    destruct (depth =? 0); split; discriminate. }
  split.
  { intros Hnz. apply Z.eqb_neq in Hnz. cbn [_min_score _max_score].
    rewrite Hnz. split; reflexivity. }
  split.
  { intros H0 Hfuel Hr. split.
    - destruct (min_score_run fuel depth r color alpha beta s H0 Hfuel Hr)
        as (s' & Hrun & _).
      eauto.
    - destruct (max_score_run fuel depth r color alpha beta s H0 Hfuel Hr)
        as (s' & Hrun & _).
      eauto. }
  intros self Hd Hfuel Hr.
  destruct (alpha_beta_min_max_run fuel self s Hd Hfuel Hr) as (s' & Hrun & _).
  eauto.
Qed.

(** C10: [make_move] builds its engine with the depth limit 4, for the board
    and the color it is given, and returns what the search of that engine
    returns: with a legal move, the move of a minimax search of 4 plies. *)
Theorem make_move_searches_4_plies (fuel : nat) (the_board : ref) (color : string)
    (s : Heap Board) :
  exists self,
    __init__ 4 the_board color = Returned self /\
    depth_limit self = 4 /\
    make_move fuel the_board color s = alpha_beta_min_max fuel self s /\
    ((4 <= fuel)%nat -> (the_board < fresh s)%nat ->
     legal_moves (cell s the_board) color <> [] ->
     exists m s',
       make_move fuel the_board color s = Some (Returned m, s') /\
       minimax_move 4 (cell s the_board) color = Some m).
Proof.
  eexists. split; [reflexivity|]. split; [reflexivity|]. split; [reflexivity|].
  intros Hfuel Hr Hmoves.
  apply (search_is_minimax fuel 4 the_board color _ s eq_refl);
    [lia | lia | exact Hr | exact Hmoves].
Qed.

(** ** Colors and piece counts *)

(** X1: [_opponent_color] returns ["B"] or ["W"], never the color it is
    given, and it undoes itself exactly on these two colors: for any other
    string the opponent is ["W"] and the opponent of the opponent is ["B"]. *)
Theorem opponent_color_cases (c : string) :
  (_opponent_color c = "B"%string \/ _opponent_color c = "W"%string) /\
  _opponent_color c <> c /\
  (_opponent_color (_opponent_color c) = c <-> c = "B"%string \/ c = "W"%string).
Proof.
  unfold _opponent_color.
  destruct (String.eqb_spec c "W") as [->|Hne].
  - cbn. repeat split; auto; discriminate.
  - cbn. split; [right; reflexivity|]. split; [congruence|]. split.
    + intros Hc. left. symmetry. exact Hc.
    + intros [Hc|Hc]; congruence.
Qed.

Lemma opponent_differs (c : string) : _opponent_color c <> c.
Proof.
  unfold _opponent_color.
  destruct (String.eqb_spec c "W") as [->|Hne]; [discriminate | congruence].
Qed.

Lemma fold_count (P : nat -> bool) (l : list nat) (acc : Z) :
  fold_left (fun count i => if P i then count + 1 else count) l acc =
  acc + Z.of_nat (List.length (filter P l)).
Proof.
  revert acc. induction l as [|i l IH]; intros acc; cbn [fold_left filter].
  - cbn. lia.
  - rewrite IH. destruct (P i); cbn [List.length]; lia.
Qed.

Lemma fold_count_rows (P : nat -> nat -> bool) (columns rows : list nat) (acc : Z) :
  fold_left (fun count j =>
               fold_left (fun count i => if P i j then count + 1 else count) rows count)
            columns acc =
  acc + Z.of_nat (List.length (filter (fun p => P (snd p) (fst p)) (list_prod columns rows))).
Proof.
  revert acc. induction columns as [|j columns IH]; intros acc;
    cbn [fold_left list_prod].
  - cbn. lia.
  - rewrite IH, (fold_count (fun i => P i j)), filter_app, List.length_app.
    assert (Hrow : List.length (filter (fun p => P (snd p) (fst p)) (map (fun y => (j, y)) rows)) =
                   List.length (filter (fun i => P i j) rows)).
    { clear. induction rows as [|i rows IH]; [reflexivity|].
      cbn [map filter snd fst]. destruct (P i j); cbn [List.length]; rewrite IH; reflexivity. }
    rewrite Hrow. lia.
Qed.

Lemma count_pieces_cells (b : Board) (c : string) :
  _count_pieces b c =
  Z.of_nat (List.length (filter (fun p => String.eqb (tiles b (snd p) (fst p)) c)
                           (list_prod (seq 0 8) (seq 0 8)))).
Proof.
  unfold _count_pieces.
  rewrite (fold_count_rows (fun i j => String.eqb (tiles b i j) c)). lia.
Qed.

Lemma filter_exclusive_length {A : Type} (P Q : A -> bool) (l : list A) :
  (forall x, P x = true -> Q x = false) ->
  (List.length (filter P l) + List.length (filter Q l) <= List.length l)%nat.
Proof.
  intros Hex. induction l as [|x l IH]; [cbn; lia|].
  cbn [filter List.length]. destruct (P x) eqn:HP.
  - rewrite (Hex x HP). cbn [List.length]. lia.
  - destruct (Q x); cbn [List.length]; lia.
Qed.

Lemma count_pieces_pair (b : Board) (c : string) :
  0 <= _count_pieces b c /\ 0 <= _count_pieces b (_opponent_color c) /\
  _count_pieces b c + _count_pieces b (_opponent_color c) <= 64.
Proof.
  rewrite !count_pieces_cells.
  pose proof (filter_exclusive_length
                (fun p => String.eqb (tiles b (snd p) (fst p)) c)
                (fun p => String.eqb (tiles b (snd p) (fst p)) (_opponent_color c))
                (list_prod (seq 0 8) (seq 0 8))) as Hsum.
  assert (Hlen : List.length (list_prod (seq 0 8) (seq 0 8)) = 64%nat) by reflexivity.
  rewrite Hlen in Hsum.
  assert (Hex : forall p : nat * nat,
             String.eqb (tiles b (snd p) (fst p)) c = true ->
             String.eqb (tiles b (snd p) (fst p)) (_opponent_color c) = false).
  { intros p Hp. apply String.eqb_eq in Hp. apply String.eqb_neq.
    rewrite Hp. intros Heq. apply (opponent_differs c). symmetry. exact Heq. }
  specialize (Hsum Hex). lia.
Qed.

Lemma cost_bounds (b : Board) (c : string) : -64 <= _cost_compute b c <= 64.
Proof.
  unfold _cost_compute. pose proof (count_pieces_pair b c). lia.
Qed.

(** X2: [_count_pieces] is the number of squares of the 8x8 grid whose tile
    is the color. *)
Theorem count_pieces_counts_squares (b : Board) (c : string) :
  _count_pieces b c =
  Z.of_nat (List.length (filter (fun p => String.eqb (tiles b (snd p) (fst p)) c)
                           (list_prod (seq 0 8) (seq 0 8)))).
Proof. apply count_pieces_cells. Qed.

(** X3: a count of pieces is between 0 and 64, and the pieces of a color and
    of its opponent are together at most 64, whatever the tiles hold. *)
Theorem count_pieces_bounds (b : Board) (c : string) :
  0 <= _count_pieces b c <= 64 /\
  _count_pieces b c + _count_pieces b (_opponent_color c) <= 64.
Proof. pose proof (count_pieces_pair b c). lia. Qed.

(** X4: the static evaluation is between -64 and 64. *)
Theorem cost_compute_bounds (b : Board) (c : string) :
  -64 <= _cost_compute b c <= 64.
Proof. apply cost_bounds. Qed.

(** X5: for the colors ["B"] and ["W"] the evaluation for the opponent is the
    opposite of the evaluation for the color. *)
Theorem cost_compute_antisymmetric (b : Board) (c : string) :
  c = "B"%string \/ c = "W"%string ->
  _cost_compute b (_opponent_color c) = - _cost_compute b c.
Proof.
  intros Hc. unfold _cost_compute.
  rewrite (opponent_of_opponent c Hc). lia.
Qed.

(** ** The values of the recursive steps *)

Lemma max_value_full_window (depth : nat) (b : Board) (color : string) :
  max_value depth b color (- INFINITY)%score INFINITY = minimax_max depth b color.
Proof.
  apply brackets_full_window. apply (proj2 (value_sound depth)). reflexivity.
Qed.

(** X6: called with a window [alpha < beta], a depth [>= 0] and enough fuel,
    [_min_score] and [_max_score] return a value that brackets the full
    minimax value of the node: a value at or below [alpha] is an upper bound
    of it, a value strictly inside the window is the minimax value itself,
    and a value at or above [beta] is a lower bound. *)
Theorem pruned_value_brackets_minimax (fuel : nat) (r : ref) (color : string)
    (alpha beta : Score) (depth : Z) (s : Heap Board) :
  0 <= depth -> depth < Z.of_nat fuel -> (r < fresh s)%nat ->
  (alpha < beta)%score ->
  (exists v s',
      _min_score fuel r color alpha beta depth s = Some (v, s') /\
      brackets v (minimax_min (Z.to_nat depth) (cell s r) color) alpha beta) /\
  (exists v s',
      _max_score fuel r color alpha beta depth s = Some (v, s') /\
      brackets v (minimax_max (Z.to_nat depth) (cell s r) color) alpha beta).
Proof.
  intros H0 Hfuel Hr Hw. split.
  - destruct (min_score_run fuel depth r color alpha beta s H0 Hfuel Hr)
      as (s' & Hrun & _).
    eexists; exists s'. split; [exact Hrun|].
    apply (proj1 (value_sound (Z.to_nat depth))). exact Hw.
  - destruct (max_score_run fuel depth r color alpha beta s H0 Hfuel Hr)
      as (s' & Hrun & _).
    eexists; exists s'. split; [exact Hrun|].
    apply (proj2 (value_sound (Z.to_nat depth))). exact Hw.
Qed.

(** X7: called with the window [(-oo, +oo)], [_min_score] and [_max_score]
    return the full minimax value of the node. *)
Theorem full_window_is_exact (fuel : nat) (r : ref) (color : string)
    (depth : Z) (s : Heap Board) :
  0 <= depth -> depth < Z.of_nat fuel -> (r < fresh s)%nat ->
  (exists s',
      _min_score fuel r color (- INFINITY)%score INFINITY depth s =
      Some (minimax_min (Z.to_nat depth) (cell s r) color, s')) /\
  (exists s',
      _max_score fuel r color (- INFINITY)%score INFINITY depth s =
      Some (minimax_max (Z.to_nat depth) (cell s r) color, s')).
Proof.
  intros H0 Hfuel Hr. split.
  - destruct (min_score_run fuel depth r color (- INFINITY)%score INFINITY s H0 Hfuel Hr)
      as (s' & Hrun & _).
    exists s'. rewrite Hrun, min_value_full_window. reflexivity.
  - destruct (max_score_run fuel depth r color (- INFINITY)%score INFINITY s H0 Hfuel Hr)
      as (s' & Hrun & _).
    exists s'. rewrite Hrun, max_value_full_window. reflexivity.
Qed.

Lemma min_value_loop_bounded (rec : Move -> Score -> Score -> Score) (alpha : Score) :
  (forall move a b, bounded_score (rec move a b)) ->
  forall moves beta best,
    bounded_score best -> bounded_score (min_value_loop rec alpha beta best moves).
Proof.
  intros Hrec moves.
  induction moves as [|move rest IH]; intros beta best Hbest; [exact Hbest|].
  cbn [min_value_loop].
  assert (Hnew : bounded_score (if Score.ltb (rec move alpha beta) best
                                then rec move alpha beta else best))
    by (destruct (Score.ltb (rec move alpha beta) best); auto).
  destruct (Score.leb _ alpha); [exact Hnew | apply IH; exact Hnew].
Qed.

Lemma max_value_loop_bounded (rec : Move -> Score -> Score -> Score) (beta : Score) :
  (forall move a b, bounded_score (rec move a b)) ->
  forall moves alpha best,
    bounded_score best -> bounded_score (max_value_loop rec alpha beta best moves).
Proof.
  intros Hrec moves.
  induction moves as [|move rest IH]; intros alpha best Hbest; [exact Hbest|].
  cbn [max_value_loop].
  assert (Hnew : bounded_score (if Score.gtb (rec move alpha beta) best
                                then rec move alpha beta else best))
    by (destruct (Score.gtb (rec move alpha beta) best); auto).
  destruct (Score.geb _ beta); [exact Hnew | apply IH; exact Hnew].
Qed.

Lemma value_bounded (depth : nat) :
  (forall b color alpha beta, bounded_score (min_value depth b color alpha beta)) /\
  (forall b color alpha beta, bounded_score (max_value depth b color alpha beta)).
Proof.
  induction depth as [|depth [IHmin IHmax]]; split; intros b color alpha beta.
  - right; right. eexists. split; [reflexivity | apply cost_bounds].
  - right; right. eexists. split; [reflexivity | apply cost_bounds].
  - cbn [min_value]. apply min_value_loop_bounded.
    + intros move a b0. apply IHmax.
    + right; left. reflexivity.
  - cbn [max_value]. apply max_value_loop_bounded.
    + intros move a b0. apply IHmin.
    + left. reflexivity.
Qed.

(** X8: with a depth [>= 0] the value returned by [_min_score] and
    [_max_score] is [-oo], [+oo] or an integer between -64 and 64. *)
Theorem search_value_is_bounded (fuel : nat) (r : ref) (color : string)
    (alpha beta : Score) (depth : Z) (s : Heap Board) :
  0 <= depth -> depth < Z.of_nat fuel -> (r < fresh s)%nat ->
  (exists v s',
      _min_score fuel r color alpha beta depth s = Some (v, s') /\ bounded_score v) /\
  (exists v s',
      _max_score fuel r color alpha beta depth s = Some (v, s') /\ bounded_score v).
Proof.
  intros H0 Hfuel Hr. split.
  - destruct (min_score_run fuel depth r color alpha beta s H0 Hfuel Hr)
      as (s' & Hrun & _).
    eexists; exists s'. split; [exact Hrun | apply value_bounded].
  - destruct (max_score_run fuel depth r color alpha beta s H0 Hfuel Hr)
      as (s' & Hrun & _).
    eexists; exists s'. split; [exact Hrun | apply value_bounded].
Qed.

(** With a negative depth the test [depth == 0] never holds: the static
    evaluation is never reached and only the bounds of nodes without moves
    come back. *)
Lemma min_loop_infinite
    (rec : ref -> Score -> Score -> Heap Board -> option (Score * Heap Board))
    (r : ref) (color : string) (alpha : Score) :
  (forall tb a b s2 v s3, rec tb a b s2 = Some (v, s3) -> v = NegInf \/ v = PosInf) ->
  forall moves beta best s v s',
    best = NegInf \/ best = PosInf ->
    min_loop rec r color alpha beta best moves s = Some (v, s') ->
    v = NegInf \/ v = PosInf.
Proof.
  intros Hrec moves.
  induction moves as [|move rest IH]; intros beta best s v s' Hbest Hrun.
  - injection Hrun as <- _. exact Hbest.
  - cbn [min_loop] in Hrun. unfold deepcopy in Hrun.
    destruct (rec _ alpha beta _) as [[score s3]|] eqn:Hcall; [|discriminate].
    apply Hrec in Hcall.
    assert (Hnew : (if Score.ltb score best then score else best) = NegInf \/
                   (if Score.ltb score best then score else best) = PosInf)
      by (destruct (Score.ltb score best); assumption).
    destruct (Score.leb _ alpha).
    + injection Hrun as <- _. exact Hnew.
    + eapply IH; [exact Hnew | exact Hrun].
Qed.

Lemma max_loop_infinite
    (rec : ref -> Score -> Score -> Heap Board -> option (Score * Heap Board))
    (r : ref) (color : string) (beta : Score) :
  (forall tb a b s2 v s3, rec tb a b s2 = Some (v, s3) -> v = NegInf \/ v = PosInf) ->
  forall moves alpha best s v s',
    best = NegInf \/ best = PosInf ->
    max_loop rec r color alpha beta best moves s = Some (v, s') ->
    v = NegInf \/ v = PosInf.
Proof.
  intros Hrec moves.
  induction moves as [|move rest IH]; intros alpha best s v s' Hbest Hrun.
  - injection Hrun as <- _. exact Hbest.
  - cbn [max_loop] in Hrun. unfold deepcopy in Hrun.
    destruct (rec _ alpha beta _) as [[score s3]|] eqn:Hcall; [|discriminate].
    apply Hrec in Hcall.
    assert (Hnew : (if Score.gtb score best then score else best) = NegInf \/
                   (if Score.gtb score best then score else best) = PosInf)
      by (destruct (Score.gtb score best); assumption).
    destruct (Score.geb _ beta).
    + injection Hrun as <- _. exact Hnew.
    + eapply IH; [exact Hnew | exact Hrun].
Qed.

Lemma negative_depth_infinite (fuel : nat) :
  forall depth, depth < 0 ->
    (forall r color alpha beta s v s',
        _min_score fuel r color alpha beta depth s = Some (v, s') ->
        v = NegInf \/ v = PosInf) /\
    (forall r color alpha beta s v s',
        _max_score fuel r color alpha beta depth s = Some (v, s') ->
        v = NegInf \/ v = PosInf).
Proof.
  induction fuel as [|fuel IH]; intros depth Hd; split;
    intros r color alpha beta s v s' Hrun; try discriminate.
  - cbn [_min_score] in Hrun.
    assert (Hnz : (depth =? 0) = false) by (apply Z.eqb_neq; lia).
    rewrite Hnz in Hrun.
    eapply min_loop_infinite; [| |exact Hrun].
    + intros tb a b s2 v2 s3 Hcall.
      apply (proj2 (IH (depth - 1) ltac:(lia)) _ _ _ _ _ _ _ Hcall).
    + right. reflexivity.
  - cbn [_max_score] in Hrun.
    assert (Hnz : (depth =? 0) = false) by (apply Z.eqb_neq; lia).
    rewrite Hnz in Hrun.
    eapply max_loop_infinite; [| |exact Hrun].
    + intros tb a b s2 v2 s3 Hcall.
      apply (proj1 (IH (depth - 1) ltac:(lia)) _ _ _ _ _ _ _ Hcall).
    + left. reflexivity.
Qed.

(** X9: with a negative depth, as a depth limit of 0 or below gives, a call
    of [_min_score] or [_max_score] that returns has returned [-oo] or [+oo]:
    no position is ever evaluated. *)
Theorem negative_depth_returns_infinity (fuel : nat) (r : ref) (color : string)
    (alpha beta : Score) (depth : Z) (s : Heap Board) (v : Score) (s' : Heap Board) :
  depth < 0 ->
  _min_score fuel r color alpha beta depth s = Some (v, s') \/
  _max_score fuel r color alpha beta depth s = Some (v, s') ->
  v = NegInf \/ v = PosInf.
Proof.
  intros Hd [Hrun|Hrun].
  - apply (proj1 (negative_depth_infinite fuel depth Hd) _ _ _ _ _ _ _ Hrun).
  - apply (proj2 (negative_depth_infinite fuel depth Hd) _ _ _ _ _ _ _ Hrun).
Qed.

(** ** The entry point and shallow searches *)

(** X10: [make_move] on a position without a legal move for the color raises
    [IndexError] and leaves the heap as it was. *)
Theorem make_move_without_legal_move (fuel : nat) (the_board : ref) (c : string)
    (s : Heap Board) :
  legal_moves (cell s the_board) c = [] ->
  make_move fuel the_board c s = Some (Raised IndexError, s).
Proof.
  intros Hmoves. unfold make_move, __init__, alpha_beta_min_max.
  cbn [board color]. rewrite Hmoves. reflexivity.
Qed.

(** X11: with [depth_limit = 1] and one of the colors ["B"] and ["W"], the
    move returned is the first move that maximises the opposite of the
    engine's material difference after the move. *)
Theorem one_ply_selects_least_material (fuel : nat) (rb : ref) (c : string)
    (self : GameStrategy) (s : Heap Board) :
  __init__ 1 rb c = Returned self ->
  c = "B"%string \/ c = "W"%string ->
  (1 <= fuel)%nat -> (rb < fresh s)%nat ->
  legal_moves (cell s rb) c <> [] ->
  exists m s',
    alpha_beta_min_max fuel self s = Some (Returned m, s') /\
    argmax_first (fun move => Fin (- material (process_move (cell s rb) move c) c))
                 (legal_moves (cell s rb) c) = Some m.
Proof.
  intros Hinit Hc Hfuel Hr Hmoves.
  destruct (search_returns_argmax fuel 1 rb c self s Hinit) as (m & s' & Hrun & Hbest & _);
    [lia | lia | exact Hr | exact Hmoves |].
  exists m, s'. split; [exact Hrun|].
  rewrite <- Hbest. apply argmax_first_ext. intros move.
  destruct (init_fields _ _ _ _ Hinit) as (Hdl & _ & Hcol & Hopp).
  rewrite (search_score_one_ply self _ move Hdl), Hcol, Hopp.
  rewrite cost_for_opponent by exact Hc. reflexivity.
Qed.

(** X12: with [depth_limit = 2] and one of the colors ["B"] and ["W"], a move
    is scored by the least material difference of the engine over the
    opponent's replies, [+oo] when the opponent has no reply, and the move
    returned is the first move of greatest such score. *)
Theorem two_plies_select_best_worst_case (fuel : nat) (rb : ref) (c : string)
    (self : GameStrategy) (s : Heap Board) :
  __init__ 2 rb c = Returned self ->
  c = "B"%string \/ c = "W"%string ->
  (2 <= fuel)%nat -> (rb < fresh s)%nat ->
  legal_moves (cell s rb) c <> [] ->
  exists m s',
    alpha_beta_min_max fuel self s = Some (Returned m, s') /\
    argmax_first
      (fun move =>
         let after := process_move (cell s rb) move c in
         minimum (map (fun reply =>
                         Fin (material (process_move after reply (_opponent_color c)) c))
                      (legal_moves after (_opponent_color c))))
      (legal_moves (cell s rb) c) = Some m.
Proof.
  intros Hinit Hc Hfuel Hr Hmoves.
  destruct (search_returns_argmax fuel 2 rb c self s Hinit) as (m & s' & Hrun & Hbest & _);
    [lia | lia | exact Hr | exact Hmoves |].
  exists m, s'. split; [exact Hrun|].
  rewrite <- Hbest. apply argmax_first_ext. intros move.
  destruct (init_fields _ _ _ _ Hinit) as (Hdl & _ & Hcol & Hopp).
  unfold search_score. rewrite Hdl, Hcol, Hopp.
  change (Z.to_nat (2 - 1)) with 1%nat.
  rewrite min_value_full_window. cbn [minimax_min minimax_max].
  rewrite (opponent_of_opponent c Hc). reflexivity.
Qed.

(** ** The copies a search makes

    Every move a search plays is played on one new copy, so the growth of the
    heap counts the moves visited. *)

Lemma min_loop_copies
    (rec : ref -> Score -> Score -> Heap Board -> option (Score * Heap Board))
    (size : Board -> nat) (r : ref) (color : string) (alpha : Score) :
  (forall tb a b s2 v s3, (tb < fresh s2)%nat -> rec tb a b s2 = Some (v, s3) ->
     frame s2 s3 /\ (fresh s3 <= fresh s2 + size (cell s2 tb))%nat) ->
  forall moves beta best s v s', (r < fresh s)%nat ->
    min_loop rec r color alpha beta best moves s = Some (v, s') ->
    (fresh s' <=
     fresh s + list_sum (map (fun m => S (size (process_move (cell s r) m color))) moves))%nat.
Proof.
  intros Hrec moves.
  induction moves as [|move rest IH]; intros beta best s v s' Hr Hrun.
  - injection Hrun as _ <-. cbn. lia.
  - destruct (copy_then_move r move color s) as (Hf & Htb & Hcell).
    cbn [min_loop] in Hrun. unfold deepcopy in *. cbn [fst snd] in *.
    set (s2 := do_process_move (fresh s) move color _) in *.
    assert (Hs2 : fresh s2 = S (fresh s)) by reflexivity.
    destruct (rec (fresh s) alpha beta s2) as [[score s3]|] eqn:Hcall; [|discriminate].
    destruct (Hrec _ _ _ _ _ _ Htb Hcall) as (Hf3 & Hsize).
    rewrite Hcell in Hsize. unfold list_sum in *. cbn [map fold_right].
    destruct (Score.leb _ alpha).
    + injection Hrun as _ <-. lia.
    + pose proof (frame_trans _ _ _ Hf Hf3) as [Hle Hc].
      apply IH in Hrun; [|lia].
      rewrite (Hc r Hr) in Hrun. lia.
Qed.

Lemma max_loop_copies
    (rec : ref -> Score -> Score -> Heap Board -> option (Score * Heap Board))
    (size : Board -> nat) (r : ref) (color : string) (beta : Score) :
  (forall tb a b s2 v s3, (tb < fresh s2)%nat -> rec tb a b s2 = Some (v, s3) ->
     frame s2 s3 /\ (fresh s3 <= fresh s2 + size (cell s2 tb))%nat) ->
  forall moves alpha best s v s', (r < fresh s)%nat ->
    max_loop rec r color alpha beta best moves s = Some (v, s') ->
    (fresh s' <=
     fresh s + list_sum (map (fun m => S (size (process_move (cell s r) m color))) moves))%nat.
Proof.
  intros Hrec moves.
  induction moves as [|move rest IH]; intros alpha best s v s' Hr Hrun.
  - injection Hrun as _ <-. cbn. lia.
  - destruct (copy_then_move r move color s) as (Hf & Htb & Hcell).
    cbn [max_loop] in Hrun. unfold deepcopy in *. cbn [fst snd] in *.
    set (s2 := do_process_move (fresh s) move color _) in *.
    assert (Hs2 : fresh s2 = S (fresh s)) by reflexivity.
    destruct (rec (fresh s) alpha beta s2) as [[score s3]|] eqn:Hcall; [|discriminate].
    destruct (Hrec _ _ _ _ _ _ Htb Hcall) as (Hf3 & Hsize).
    rewrite Hcell in Hsize. unfold list_sum in *. cbn [map fold_right].
    destruct (Score.geb _ beta).
    + injection Hrun as _ <-. lia.
    + pose proof (frame_trans _ _ _ Hf Hf3) as [Hle Hc].
      apply IH in Hrun; [|lia].
      rewrite (Hc r Hr) in Hrun. lia.
Qed.

Lemma score_copies (fuel : nat) :
  forall depth : nat,
    (forall r color alpha beta s v s', (r < fresh s)%nat ->
       _min_score fuel r color alpha beta (Z.of_nat depth) s = Some (v, s') ->
       frame s s' /\ (fresh s' <= fresh s + tree_size depth (cell s r) color)%nat) /\
    (forall r color alpha beta s v s', (r < fresh s)%nat ->
       _max_score fuel r color alpha beta (Z.of_nat depth) s = Some (v, s') ->
       frame s s' /\ (fresh s' <= fresh s + tree_size depth (cell s r) color)%nat).
Proof.
  induction fuel as [|fuel IH]; intros depth; split;
    intros r color alpha beta s v s' Hr Hrun; try discriminate.
  - split; [exact (proj1 (score_frame (S fuel)) _ _ _ _ _ _ _ _ Hrun)|].
    destruct depth as [|depth].
    + injection Hrun as _ <-. lia.
    + cbn [_min_score] in Hrun.
      assert (Hnz : (Z.of_nat (S depth) =? 0) = false) by (apply Z.eqb_neq; lia).
      assert (Hpred : Z.of_nat (S depth) - 1 = Z.of_nat depth) by lia.
      rewrite Hnz, Hpred in Hrun. cbn [tree_size].
      eapply (min_loop_copies _ (fun b => tree_size depth b (_opponent_color color)));
        [|exact Hr|exact Hrun].
      intros tb a b s2 v2 s3 Htb Hcall.
      apply (proj2 (IH depth) _ _ _ _ _ _ _ Htb Hcall).
  - split; [exact (proj2 (score_frame (S fuel)) _ _ _ _ _ _ _ _ Hrun)|].
    destruct depth as [|depth].
    + injection Hrun as _ <-. lia.
    + cbn [_max_score] in Hrun.
      assert (Hnz : (Z.of_nat (S depth) =? 0) = false) by (apply Z.eqb_neq; lia).
      assert (Hpred : Z.of_nat (S depth) - 1 = Z.of_nat depth) by lia.
      rewrite Hnz, Hpred in Hrun. cbn [tree_size].
      eapply (max_loop_copies _ (fun b => tree_size depth b (_opponent_color color)));
        [|exact Hr|exact Hrun].
      intros tb a b s2 v2 s3 Htb Hcall.
      apply (proj1 (IH depth) _ _ _ _ _ _ _ Htb Hcall).
Qed.

Lemma select_loop_copies
    (rec : ref -> Heap Board -> option (Score * Heap Board))
    (size : Board -> nat) (self : GameStrategy) :
  (forall tb s2 v s3, (tb < fresh s2)%nat -> rec tb s2 = Some (v, s3) ->
     frame s2 s3 /\ (fresh s3 <= fresh s2 + size (cell s2 tb))%nat) ->
  forall moves best final s m s', (board self < fresh s)%nat ->
    select_loop rec self best final moves s = Some (m, s') ->
    (fresh s + List.length moves <= fresh s')%nat /\
    (fresh s' <=
     fresh s +
     list_sum (map (fun m => S (size (process_move (cell s (board self)) m (color self))))
                   moves))%nat.
Proof.
  intros Hrec moves.
  induction moves as [|move rest IH]; intros best final s m s' Hr Hrun.
  - injection Hrun as _ <-. cbn. lia.
  - destruct (copy_then_move (board self) move (color self) s) as (Hf & Htb & Hcell).
    cbn [select_loop] in Hrun. unfold deepcopy in *. cbn [fst snd] in *.
    set (s2 := do_process_move (fresh s) move (color self) _) in *.
    assert (Hs2 : fresh s2 = S (fresh s)) by reflexivity.
    destruct (rec (fresh s) s2) as [[score s3]|] eqn:Hcall; [|discriminate].
    destruct (Hrec _ _ _ _ Htb Hcall) as (Hf3 & Hsize).
    rewrite Hcell in Hsize. unfold list_sum in *. cbn [map fold_right List.length].
    pose proof (frame_trans _ _ _ Hf Hf3) as [Hle Hc].
    destruct Hf3 as [Hle3 _].
    destruct (Score.gtb score best);
      apply IH in Hrun; try lia;
      rewrite (Hc (board self) Hr) in Hrun; lia.
Qed.

(** X13: a search with [depth_limit >= 1] makes at least one copy of the
    board for every legal move of the root, and in all no more copies than
    there are moves in the full tree of [depth_limit] plies: pruning only
    leaves moves out. *)
Theorem search_copies_bounds (fuel : nat) (d : Z) (rb : ref) (c : string)
    (self : GameStrategy) (s : Heap Board) :
  __init__ d rb c = Returned self ->
  1 <= d -> d <= Z.of_nat fuel -> (rb < fresh s)%nat ->
  exists out s',
    alpha_beta_min_max fuel self s = Some (out, s') /\
    (fresh s + List.length (legal_moves (cell s rb) c) <= fresh s')%nat /\
    (fresh s' <= fresh s + tree_size (Z.to_nat d) (cell s rb) c)%nat.
Proof.
  intros Hinit Hd Hfuel Hr.
  destruct (init_fields _ _ _ _ Hinit) as (Hdl & Hb & Hc & Hopp).
  destruct (alpha_beta_min_max_run fuel self s) as (s' & Hrun & _);
    [lia | lia | rewrite Hb; exact Hr |].
  eexists; exists s'. split; [exact Hrun|].
  unfold alpha_beta_min_max in Hrun. rewrite Hb, Hc, Hdl, Hopp in Hrun.
  destruct (Z.to_nat d) as [|depth] eqn:Hdepth; [lia|].
  assert (Hpred : d - 1 = Z.of_nat depth) by lia.
  rewrite Hpred in Hrun. cbn [tree_size].
  destruct (legal_moves (cell s rb) c) as [|final_move rest] eqn:Hmoves.
  - injection Hrun as _ <-. cbn. lia.
  - destruct (select_loop _ self _ final_move (final_move :: rest) s)
      as [[m s1]|] eqn:Hloop; [|discriminate].
    injection Hrun as _ <-.
    eapply (select_loop_copies _ (fun b => tree_size depth b (_opponent_color c)))
      in Hloop.
    + rewrite Hb, Hc in Hloop. exact Hloop.
    + intros tb s2 v s3 Htb Hcall.
      apply (proj1 (score_copies fuel depth) _ _ _ _ _ _ _ Htb Hcall).
    + rewrite Hb. exact Hr.
Qed.

(** ** Outcomes of the search, whatever the depth limit *)

Lemma select_loop_In
    (rec : ref -> Heap Board -> option (Score * Heap Board)) (self : GameStrategy) :
  forall moves best final s m s',
    select_loop rec self best final moves s = Some (m, s') ->
    m = final \/ In m moves.
Proof.
  intros moves.
  induction moves as [|move rest IH]; intros best final s m s' Hrun.
  - injection Hrun as <- _. left. reflexivity.
  - cbn [select_loop] in Hrun. unfold deepcopy in Hrun.
    destruct (rec _ _) as [[score s3]|]; [|discriminate].
    destruct (Score.gtb score best); apply IH in Hrun.
    + destruct Hrun as [->|Hin]; right; [left; reflexivity | right; exact Hin].
    + destruct Hrun as [->|Hin]; [left; reflexivity | right; right; exact Hin].
Qed.

(** X14: whatever the depth limit and the fuel, a search that ends has either
    returned one of the legal moves of the engine's board and color, or raised
    [IndexError] on a position without a legal move; it never returns another
    move and never raises another exception. *)
Theorem search_outcome_cases (fuel : nat) (self : GameStrategy) (s : Heap Board)
    (out : outcome Move) (s' : Heap Board) :
  alpha_beta_min_max fuel self s = Some (out, s') ->
  match out with
  | Returned m => In m (legal_moves (cell s (board self)) (color self))
  | Raised e => e = IndexError /\ legal_moves (cell s (board self)) (color self) = []
  end.
Proof.
  unfold alpha_beta_min_max.
  destruct (legal_moves (cell s (board self)) (color self)) as [|final_move rest].
  - intros Hrun. injection Hrun as <- _. split; reflexivity.
  - destruct (select_loop _ self _ final_move (final_move :: rest) s)
      as [[m s1]|] eqn:Hloop; [|discriminate].
    intros Hrun. injection Hrun as <- _.
    apply select_loop_In in Hloop.
    destruct Hloop as [->|Hin]; [left; reflexivity | exact Hin].
Qed.

End Properties.

(** ** The agent on the Othello board *)

#[local] Existing Instance othello.

(** C1: with [depth_limit = 1] the engine does not return the move of
    greatest material difference.  Black to move on [Othello.three_or_one]:
    playing [(4, 0)] leaves Black 6 pieces against 1, playing [(2, 2)] leaves
    4 against 3, and the engine returns [(2, 2)]. *)
Theorem one_ply_returns_least_material :
  Othello.legal_moves Othello.three_or_one "B" = [(4, 0); (2, 2)] /\
  material (Othello.process_move Othello.three_or_one (4, 0) "B") "B" = 5 /\
  material (Othello.process_move Othello.three_or_one (2, 2) "B") "B" = 1 /\
  __init__ 1 0 "B" = Returned (mkGameStrategy 1 0 "B" "W") /\
  option_map fst
    (alpha_beta_min_max 1%nat (mkGameStrategy 1 0 "B" "W")
             (Othello.heap_of Othello.three_or_one)) =
  Some (Returned (2, 2)).
Proof. repeat split; vm_compute; reflexivity. Qed.

(** Black on the opening position, four plies. *)
Lemma alpha_beta_equals_minimax_witness :
  exists m s',
    alpha_beta_min_max 4%nat (mkGameStrategy 4 0 "B" "W")
            (Othello.heap_of Othello.opening) = Some (Returned m, s') /\
    minimax_move (Z.to_nat 4) (cell (Othello.heap_of Othello.opening) 0) "B" =
    Some m.
Proof.
  apply (alpha_beta_equals_minimax (api := othello) 4 4 0 "B").
  - reflexivity.
  - lia.
  - lia.
  - simpl. lia.
  - vm_compute. discriminate.
Defined.

(** C3 as stated fails: a depth limit of 0 or below is accepted. *)
Lemma init_accepts_zero_and_negative :
  __init__ 0 0 "B" = Returned (mkGameStrategy 0 0 "B" "W") /\
  __init__ (-3) 0 "B" = Returned (mkGameStrategy (-3) 0 "B" "W") /\
  __init__ 0 0 "B" <> Raised InvalidArgument.
Proof. repeat split. discriminate. Qed.

(** C4 as stated fails: without a legal move the error is [IndexError], not
    a condition of its own. *)
Lemma bare_board_raises_IndexError :
  Othello.legal_moves Othello.bare "B" = [] /\
  option_map fst
    (alpha_beta_min_max 4%nat (mkGameStrategy 4 0 "B" "W")
             (Othello.heap_of Othello.bare)) =
  Some (Raised IndexError) /\
  option_map fst
    (alpha_beta_min_max 4%nat (mkGameStrategy 4 0 "B" "W")
             (Othello.heap_of Othello.bare)) <>
  Some (Raised IllegalState).
Proof. repeat split; vm_compute; try reflexivity. discriminate. Qed.

(** Black on the board without pieces. *)
Lemma no_legal_move_raises_IndexError_witness :
  alpha_beta_min_max 4%nat (mkGameStrategy 4 0 "B" "W")
          (Othello.heap_of Othello.bare) =
  Some (Raised IndexError, Othello.heap_of Othello.bare).
Proof.
  apply (no_legal_move_raises_IndexError (api := othello) 4 (mkGameStrategy 4 0 "B" "W") (Othello.heap_of Othello.bare)).
  vm_compute. reflexivity.
Defined.

(** Black on the opening position, one ply: the four moves score the same. *)
Lemma first_best_move_wins_witness :
  exists k m s',
    alpha_beta_min_max 1%nat (mkGameStrategy 1 0 "B" "W")
            (Othello.heap_of Othello.opening) = Some (Returned m, s') /\
    nth_error (Othello.legal_moves (cell (Othello.heap_of Othello.opening) 0) "B") k =
    Some m /\
    (forall j mj,
        nth_error (Othello.legal_moves (cell (Othello.heap_of Othello.opening) 0) "B") j =
        Some mj ->
        (search_score (mkGameStrategy 1 0 "B" "W")
                 (cell (Othello.heap_of Othello.opening) 0) mj <=
         search_score (mkGameStrategy 1 0 "B" "W")
                 (cell (Othello.heap_of Othello.opening) 0) m)%score) /\
    (forall j mj, (j < k)%nat ->
        nth_error (Othello.legal_moves (cell (Othello.heap_of Othello.opening) 0) "B") j =
        Some mj ->
        (search_score (mkGameStrategy 1 0 "B" "W")
                 (cell (Othello.heap_of Othello.opening) 0) mj <
         search_score (mkGameStrategy 1 0 "B" "W")
                 (cell (Othello.heap_of Othello.opening) 0) m)%score).
Proof.
  apply (first_best_move_wins (api := othello) 1 1 0 "B").
  - reflexivity.
  - lia.
  - lia.
  - simpl. lia.
  - vm_compute. discriminate.
Defined.

(** Black on [Othello.three_or_one], two plies. *)
Lemma returned_move_is_legal_witness :
  exists m s',
    alpha_beta_min_max 2%nat (mkGameStrategy 2 0 "B" "W")
            (Othello.heap_of Othello.three_or_one) = Some (Returned m, s') /\
    In m (Othello.legal_moves (cell (Othello.heap_of Othello.three_or_one) 0) "B").
Proof.
  apply (returned_move_is_legal (api := othello) 2 2 0 "B").
  - reflexivity.
  - lia.
  - lia.
  - simpl. lia.
  - vm_compute. discriminate.
Defined.

(** White has no move on [Othello.three_or_one]. *)
Lemma no_move_returns_initial_bound_witness :
  _min_score 1%nat 0%nat "W" NegInf PosInf 3
          (Othello.heap_of Othello.three_or_one) =
  Some (PosInf, Othello.heap_of Othello.three_or_one) /\
  _max_score 1%nat 0%nat "W" NegInf PosInf 3
          (Othello.heap_of Othello.three_or_one) =
  Some (NegInf, Othello.heap_of Othello.three_or_one).
Proof.
  apply (no_move_returns_initial_bound (api := othello) 0 0 "W" NegInf PosInf 3 (Othello.heap_of Othello.three_or_one)).
  - lia.
  - vm_compute. reflexivity.
Defined.

(** The opening position is still at reference 0 after a search of four
    plies. *)
Lemma search_leaves_boards_unchanged_witness :
  exists out s',
    alpha_beta_min_max 4%nat (mkGameStrategy 4 0 "B" "W")
            (Othello.heap_of Othello.opening) = Some (out, s') /\
    cell s' 0 = cell (Othello.heap_of Othello.opening) 0.
Proof.
  apply (proj2 (search_leaves_boards_unchanged (api := othello) 4 (mkGameStrategy 4 0 "B" "W")
                  (Othello.heap_of Othello.opening))).
  - simpl. lia.
  - simpl. lia.
  - simpl. lia.
Defined.

(** The search of four plies from the opening position, with fuel 4. *)
Lemma search_terminates_witness :
  exists out s',
    alpha_beta_min_max 4%nat (mkGameStrategy 4 0 "B" "W")
            (Othello.heap_of Othello.opening) = Some (out, s').
Proof.
  apply (proj2 (proj2 (proj2 (proj2
           (search_terminates (api := othello) 4 0 "B" NegInf PosInf 3
              (Othello.heap_of Othello.opening)))))).
  - simpl. lia.
  - simpl. lia.
  - simpl. lia.
Defined.

(** [make_move] for Black on the opening position. *)
Lemma make_move_searches_4_plies_witness :
  exists m s',
    make_move 4%nat 0%nat "B" (Othello.heap_of Othello.opening) =
    Some (Returned m, s') /\
    minimax_move 4%nat (cell (Othello.heap_of Othello.opening) 0) "B" = Some m.
Proof.
  destruct (make_move_searches_4_plies (api := othello) 4 0 "B" (Othello.heap_of Othello.opening))
    as (self & _ & _ & _ & Hsearch).
  apply Hsearch.
  - lia.
  - simpl. lia.
  - vm_compute. discriminate.
Defined.

(** The evaluation of [Othello.three_or_one] for White and for Black. *)
Lemma cost_compute_antisymmetric_witness :
  _cost_compute Othello.three_or_one (_opponent_color "B") =
  - _cost_compute Othello.three_or_one "B".
Proof.
  apply (cost_compute_antisymmetric (api := othello) Othello.three_or_one "B").
  left. reflexivity.
Defined.

(** Two plies from the opening position with the window [(-2, 2)]. *)
Lemma pruned_value_brackets_minimax_witness :
  (exists v s',
      _min_score 3%nat 0%nat "B" (Fin (-2)) (Fin 2) 2 (Othello.heap_of Othello.opening) =
      Some (v, s') /\
      brackets v (minimax_min (Z.to_nat 2) (cell (Othello.heap_of Othello.opening) 0) "B")
               (Fin (-2)) (Fin 2)) /\
  (exists v s',
      _max_score 3%nat 0%nat "B" (Fin (-2)) (Fin 2) 2 (Othello.heap_of Othello.opening) =
      Some (v, s') /\
      brackets v (minimax_max (Z.to_nat 2) (cell (Othello.heap_of Othello.opening) 0) "B")
               (Fin (-2)) (Fin 2)).
Proof.
  apply (pruned_value_brackets_minimax (api := othello)).
  - lia.
  - lia.
  - simpl. lia.
  - reflexivity.
Defined.

(** Two plies from the opening position with the full window. *)
Lemma full_window_is_exact_witness :
  (exists s',
      _min_score 3%nat 0%nat "B" (- INFINITY)%score INFINITY 2
                 (Othello.heap_of Othello.opening) =
      Some (minimax_min (Z.to_nat 2) (cell (Othello.heap_of Othello.opening) 0) "B", s')) /\
  (exists s',
      _max_score 3%nat 0%nat "B" (- INFINITY)%score INFINITY 2
                 (Othello.heap_of Othello.opening) =
      Some (minimax_max (Z.to_nat 2) (cell (Othello.heap_of Othello.opening) 0) "B", s')).
Proof.
  apply (full_window_is_exact (api := othello)).
  - lia.
  - lia.
  - simpl. lia.
Defined.

(** Three plies from the opening position. *)
Lemma search_value_is_bounded_witness :
  (exists v s',
      _min_score 4%nat 0%nat "B" NegInf PosInf 3 (Othello.heap_of Othello.opening) =
      Some (v, s') /\ bounded_score v) /\
  (exists v s',
      _max_score 4%nat 0%nat "B" NegInf PosInf 3 (Othello.heap_of Othello.opening) =
      Some (v, s') /\ bounded_score v).
Proof.
  apply (search_value_is_bounded (api := othello)).
  - lia.
  - lia.
  - simpl. lia.
Defined.

(** Depth -1 on [Othello.three_or_one]: Black moves, White cannot, and the
    value is an infinity. *)
Lemma negative_depth_returns_infinity_witness :
  exists v s',
    _min_score 5%nat 0%nat "B" NegInf PosInf (-1) (Othello.heap_of Othello.three_or_one) =
    Some (v, s') /\
    (v = NegInf \/ v = PosInf).
Proof.
  destruct (_min_score (api := othello) 5%nat 0%nat "B" NegInf PosInf (-1)
                       (Othello.heap_of Othello.three_or_one))
    as [[v s']|] eqn:Hrun.
  - exists v, s'. split; [reflexivity|].
    apply (negative_depth_returns_infinity (api := othello) 5 0 "B" NegInf PosInf (-1)
             (Othello.heap_of Othello.three_or_one) v s').
    + lia.
    + left. exact Hrun.
  - vm_compute in Hrun. discriminate Hrun.
Defined.

(** [make_move] for Black on the board without pieces. *)
Lemma make_move_without_legal_move_witness :
  make_move 4%nat 0%nat "B" (Othello.heap_of Othello.bare) =
  Some (Raised IndexError, Othello.heap_of Othello.bare).
Proof.
  apply (make_move_without_legal_move (api := othello)).
  vm_compute. reflexivity.
Defined.

(** One ply for Black on [Othello.three_or_one]. *)
Lemma one_ply_selects_least_material_witness :
  exists m s',
    alpha_beta_min_max 1%nat (mkGameStrategy 1 0 "B" "W")
                       (Othello.heap_of Othello.three_or_one) = Some (Returned m, s') /\
    argmax_first
      (fun move =>
         Fin (- material (process_move (cell (Othello.heap_of Othello.three_or_one) 0)
                                       move "B") "B"))
      (legal_moves (cell (Othello.heap_of Othello.three_or_one) 0) "B") = Some m.
Proof.
  apply (one_ply_selects_least_material (api := othello) 1 0 "B").
  - reflexivity.
  - left. reflexivity.
  - lia.
  - simpl. lia.
  - vm_compute. discriminate.
Defined.

(** Two plies for Black on the opening position. *)
Lemma two_plies_select_best_worst_case_witness :
  exists m s',
    alpha_beta_min_max 2%nat (mkGameStrategy 2 0 "B" "W")
                       (Othello.heap_of Othello.opening) = Some (Returned m, s') /\
    argmax_first
      (fun move =>
         let after := process_move (cell (Othello.heap_of Othello.opening) 0) move "B" in
         minimum (map (fun reply =>
                         Fin (material (process_move after reply (_opponent_color "B")) "B"))
                      (legal_moves after (_opponent_color "B"))))
      (legal_moves (cell (Othello.heap_of Othello.opening) 0) "B") = Some m.
Proof.
  apply (two_plies_select_best_worst_case (api := othello) 2 0 "B").
  - reflexivity.
  - left. reflexivity.
  - lia.
  - simpl. lia.
  - vm_compute. discriminate.
Defined.

(** Four plies for Black from the opening position. *)
Lemma search_copies_bounds_witness :
  exists out s',
    alpha_beta_min_max 4%nat (mkGameStrategy 4 0 "B" "W")
                       (Othello.heap_of Othello.opening) = Some (out, s') /\
    (fresh (Othello.heap_of Othello.opening) +
     List.length (legal_moves (cell (Othello.heap_of Othello.opening) 0) "B") <=
     fresh s')%nat /\
    (fresh s' <=
     fresh (Othello.heap_of Othello.opening) +
     tree_size (Z.to_nat 4) (cell (Othello.heap_of Othello.opening) 0) "B")%nat.
Proof.
  apply (search_copies_bounds (api := othello) 4 4 0 "B").
  - reflexivity.
  - lia.
  - lia.
  - simpl. lia.
Defined.

(** A search with the depth limit 0 on [Othello.three_or_one]: it ends, and
    with a legal move. *)
Lemma search_outcome_cases_witness :
  exists out s',
    alpha_beta_min_max 5%nat (mkGameStrategy 0 0 "B" "W")
                       (Othello.heap_of Othello.three_or_one) = Some (out, s') /\
    match out with
    | Returned m =>
        In m (legal_moves (cell (Othello.heap_of Othello.three_or_one) 0) "B")
    | Raised e =>
        e = IndexError /\
        legal_moves (cell (Othello.heap_of Othello.three_or_one) 0) "B" = []
    end.
Proof.
  destruct (alpha_beta_min_max (api := othello) 5%nat (mkGameStrategy 0 0 "B" "W")
                               (Othello.heap_of Othello.three_or_one))
    as [[out s']|] eqn:Hrun.
  - exists out, s'. split; [reflexivity|].
    apply (search_outcome_cases (api := othello) 5 (mkGameStrategy 0 0 "B" "W")
             (Othello.heap_of Othello.three_or_one) out s' Hrun).
  - vm_compute in Hrun. discriminate Hrun.
Defined.
